(** * Task lifecycle store and log-to-event relay of [agent/ai_server.py]

    A model of the in-memory task store ([tasks], [task_logs]), of the
    background runner [execute_agent] and of the server-sent-event relay
    [stream_task_logs] / [event_generator], together with the properties the
    design document states about them.

    Conventions.
    - A Python [str] is a [string] holding its UTF-8 encoding; indices and
      slices count code points, as Python does (module [PyStr]).
    - [None] in an optional dict field is [None : option string].
    - The two module-level dicts are finite maps keyed by task id.  A value of
      [task_logs] is a reference to a list object: the relay keeps such a
      reference across its suspension points, so list objects live in a heap
      and [task_logs] maps ids to heap locations.  The dict stored under
      [tasks[task_id]] is only ever mutated in place, never rebound, hence a
      reference to it is read as a lookup in the current store.
    - [datetime.utcnow().isoformat()] reads the field [now] of the store.
    - The runner is executed by the thread pool and the relay by the event
      loop, so every statement that touches the shared dicts is one step of a
      small-step machine, and steps of different machines interleave.
    - A call into code that is not part of the module (the agent and its
      model provider, [json.loads]) returns, raises, or does not come back;
      which of these happens is an input of the model. *)

From Stdlib Require Import Ascii String.
From stdpp Require Import gmap strings list fin_maps pretty.


(** ** Python strings *)

Module PyStr.

(** Bytes [10xxxxxx] continue a code point started by an earlier byte. *)
Definition is_continuation (b : ascii) : bool :=
  let n := nat_of_ascii b in (128 <=? n) && (n <? 192).

(** Right-to-left grouping: the first component collects the continuation
    bytes seen so far, which belong to the next leading byte to the left. *)
Fixpoint group_bytes (s : string) : string * list string :=
  match s with
  | EmptyString => (EmptyString, [])
  | String b rest =>
      let '(pend, cps) := group_bytes rest in
      if is_continuation b then (String b pend, cps)
      else (EmptyString, String b pend :: cps)
  end.

Definition codepoints (s : string) : list string :=
  let '(pend, cps) := group_bytes s in
  match pend with
  | EmptyString => cps
  | _ => pend :: cps
  end.

Definition join (cps : list string) : string := foldr String.append EmptyString cps.

(** [len(s)] *)
Definition len (s : string) : nat := length (codepoints s).

(** [s[a:]] and [s[a:b]] for non-negative [a], [b]. *)
Definition slice_from (a : nat) (s : string) : string :=
  join (drop a (codepoints s)).

Definition slice (a b : nat) (s : string) : string :=
  join (take (b - a) (drop a (codepoints s))).

(** [s.startswith(p)] *)
Definition startswith (p s : string) : bool := String.prefix p s.

(** [c in s] for a one-character [c]. *)
Definition contains (c s : string) : bool :=
  existsb (String.eqb c) (codepoints s).

Fixpoint find_index (c : string) (cps : list string) : option nat :=
  match cps with
  | [] => None
  | x :: rest => if String.eqb c x then Some 0 else S <$> find_index c rest
  end.

(** [s.index(c)] for a one-character [c]; [None] is [ValueError]. *)
Definition index (c s : string) : option nat := find_index c (codepoints s).

Definition lower_ascii (b : ascii) : ascii :=
  let n := nat_of_ascii b in
  if (65 <=? n) && (n <=? 90) then ascii_of_nat (n + 32) else b.

(** [s.lower()], on the ASCII letters (bytes of other code points are left
    as they are). *)
Fixpoint lower (s : string) : string :=
  match s with
  | EmptyString => EmptyString
  | String b rest => String (lower_ascii b) (lower rest)
  end.

End PyStr.

(** ** Exceptions *)

(** An exception object that is an instance of [Exception]: the [KeyError]
    of a subscript [d[key]] whose key is missing, or any other one, given by
    the name of its class and by its [str()]. *)
Inductive Exn :=
  | KeyError (key : string)
  | Error (class_name : string) (str : string).

(** An exception object that is an instance of [BaseException] but not of
    [Exception]; a clause [except Exception] lets it pass. *)
Inductive BaseExn :=
  | SystemExit (code : Z)
  | KeyboardInterrupt
  | GeneratorExit
  | OtherBase (class_name : string).

(** What the handler of [execute_agent] gets from the interpreter: [repr] of
    a [str] (the [str()] of a [KeyError] is the [repr] of its key) and the
    text [traceback.format_exc()] returns while the exception is being
    handled. *)
Class Interpreter := {
  repr : string → string;
  format_exc : Exn → string
}.

(** [str(e)] *)
Definition exn_str `{Interpreter} (e : Exn) : string :=
  match e with
  | KeyError key => repr key
  | Error _ str => str
  end.

(** ** JSON values and the [json] module *)

#[local] Unset Elimination Schemes.
Inductive JSON :=
  | JNull
  | JBool (b : bool)
  | JInt (z : Z)
  | JFloat (literal : string)
  | JStr (s : string)
  | JArr (items : list JSON)
  | JObj (members : list (string * JSON)).
#[local] Set Elimination Schemes.

(** How a call of [json.loads] ends: it returns a value; or it raises
    [JSONDecodeError], which is a [ValueError]; or it raises an exception
    that is no [ValueError], as the decoder of CPython does with
    [RecursionError] on input that is nested too deep. *)
Inductive Decoding :=
  | Decoded (j : JSON)
  | Rejected
  | Failed (e : Exn).

(** The two entry points of the standard [json] module the server calls.
    [dumps] is called with [ensure_ascii=False], on values that [loads] has
    returned or that are built from strings, and is taken to return on
    them. *)
Class JsonLib := {
  loads : string → Decoding;
  dumps : JSON → string
}.

(** [None] and [str] values of optional fields, as [json.dumps] sees them. *)
Definition json_opt (o : option string) : JSON :=
  match o with
  | None => JNull
  | Some s => JStr s
  end.

(** ** Data model *)

(** class TaskStatus *)
Module TaskStatus.
Definition PENDING := "pending".
Definition RUNNING := "running".
Definition SUCCESS := "success".
Definition FAILED := "failed".
End TaskStatus.

(** The dict stored under [tasks[task_id]] (built by [run_agent]). *)
Record Task := {
  task_id : string;
  status : string;
  init_prompt : string;
  created_at : string;
  started_at : option string;
  finished_at : option string;
  error_message : option string
}.

(** An element of a [task_logs] list. *)
Record LogRecord := {
  timestamp : string;
  message : string
}.

(** A reference to a list object: its index in the heap. *)
Abbreviation loc := nat (only parsing).

Record Store := {
  tasks : gmap string Task;
  task_logs : gmap string loc;
  heap : list (list LogRecord);
  now : string
}.

Definition set_tasks (f : gmap string Task → gmap string Task) (σ : Store) : Store :=
  {| tasks := f (tasks σ); task_logs := task_logs σ; heap := heap σ; now := now σ |}.

(** The list object a reference points to. *)
Definition deref (σ : Store) (l : loc) : list LogRecord := default [] (heap σ !! l).

(** [task_logs[task_id]], read through the reference. *)
Definition logs_of (σ : Store) (id : string) : option (list LogRecord) :=
  deref σ <$> task_logs σ !! id.

(** [task_logs[task_id] = []]: a new list object is bound to the id. *)
Definition new_log (id : string) (σ : Store) : Store :=
  {| tasks := tasks σ;
     task_logs := <[id := length (heap σ)]> (task_logs σ);
     heap := heap σ ++ [[]];
     now := now σ |}.

(** [some_list.append(r)] *)
Definition append_at (l : loc) (r : LogRecord) (σ : Store) : Store :=
  {| tasks := tasks σ;
     task_logs := task_logs σ;
     heap := alter (λ rs, rs ++ [r]) l (heap σ);
     now := now σ |}.

(** def log_task(task_id, message) -- the server-side logger call has no
    effect on the shared dicts. *)
Definition log_task (id : string) (msg : string) (σ : Store) : Store :=
  let σ1 := match task_logs σ !! id with
            | None => new_log id σ
            | Some _ => σ
            end in
  let ts := now σ1 in
  match task_logs σ1 !! id with
  | Some l => append_at l {| timestamp := ts; message := msg |} σ1
  | None => σ1
  end.

(** The environment: the clock moves. *)
Definition tick (ts : string) (σ : Store) : Store :=
  {| tasks := tasks σ; task_logs := task_logs σ; heap := heap σ; now := ts |}.

(** ** The background runner: [execute_agent] *)

(** How a call ends: it returns; it raises an instance of [Exception]; it
    raises an exception that is no instance of [Exception] ([sys.exit()]
    inside the agent raises [SystemExit]); or it does not return at all. *)
Inductive Outcome :=
  | Returns
  | Raises (e : Exn)
  | Exits (b : BaseExn)
  | Hangs.

(** What the collaborators ([agent.models], [agent.deep_agent]) do during
    one run of [execute_agent].  They may look at [init_prompt] and
    [verbose], which the runner only passes on.  [run_events] are the calls
    of [event_callback] that [agent.run] makes and that return; a callback
    that raises (its [json.dumps] may, on data that is no JSON value) ends
    [agent.run], or not, as the agent decides, which [run_outcome] tells. *)
Record Collaborators := {
  provider_ctor : Outcome;            (* AnthropicModelProvider() *)
  get_model : Outcome;                (* provider.get_model() *)
  agent_ctor : Outcome;               (* RefactorAgent(model, verbose=verbose) *)
  run_events : list (string * JSON);  (* calls of event_callback made by agent.run *)
  run_outcome : Outcome               (* how agent.run(...) ends *)
}.

(** The statements of [execute_agent] that touch the shared dicts or call a
    collaborator.  [print] and [logger] calls are left out. *)
Inductive Instr :=
  | NewLog                          (* task_logs[task_id] = [] *)
  | SetStatus (s : string)          (* tasks[task_id]["status"] = s *)
  | SetStartedAt                    (* tasks[task_id]["started_at"] = utcnow().isoformat() *)
  | SetFinishedAt                   (* tasks[task_id]["finished_at"] = utcnow().isoformat() *)
  | SetErrorMessage (m : string)    (* tasks[task_id]["error_message"] = m *)
  | LogTask (msg : string)          (* log_task(task_id, msg) *)
  | Call (o : Outcome).             (* a collaborator is called *)

(** What a statement does: it completes and leaves a store, it raises, or
    the call it makes does not return. *)
Inductive Result :=
  | Ok (σ : Store)
  | Raise (e : Exn)
  | Exit (b : BaseExn)
  | Hang.

(** [tasks[task_id][field] = value] *)
Definition set_field (id : string) (f : Task → Task) (σ : Store) : Result :=
  match tasks σ !! id with
  | Some t => Ok (set_tasks <[id := f t]> σ)
  | None => Raise (KeyError id)
  end.

Definition with_status (s : string) (t : Task) : Task :=
  {| task_id := task_id t; status := s; init_prompt := init_prompt t;
     created_at := created_at t; started_at := started_at t;
     finished_at := finished_at t; error_message := error_message t |}.

Definition with_started_at (ts : string) (t : Task) : Task :=
  {| task_id := task_id t; status := status t; init_prompt := init_prompt t;
     created_at := created_at t; started_at := Some ts;
     finished_at := finished_at t; error_message := error_message t |}.

Definition with_finished_at (ts : string) (t : Task) : Task :=
  {| task_id := task_id t; status := status t; init_prompt := init_prompt t;
     created_at := created_at t; started_at := started_at t;
     finished_at := Some ts; error_message := error_message t |}.

Definition with_error_message (m : string) (t : Task) : Task :=
  {| task_id := task_id t; status := status t; init_prompt := init_prompt t;
     created_at := created_at t; started_at := started_at t;
     finished_at := finished_at t; error_message := Some m |}.

Definition exec (id : string) (i : Instr) (σ : Store) : Result :=
  match i with
  | NewLog => Ok (new_log id σ)
  | SetStatus s => set_field id (with_status s) σ
  | SetStartedAt => set_field id (with_started_at (now σ)) σ
  | SetFinishedAt => set_field id (with_finished_at (now σ)) σ
  | SetErrorMessage m => set_field id (with_error_message m) σ
  | LogTask msg => Ok (log_task id msg σ)
  | Call Returns => Ok σ
  | Call (Raises e) => Raise e
  | Call (Exits b) => Exit b
  | Call Hangs => Hang
  end.

Section Runner.
Context `{JsonLib} `{Interpreter}.

(** def handle_chunk_event(event_type, data) *)
Definition handle_chunk_event (ev : string * JSON) : Instr :=
  LogTask ("[" +:+ ev.1 +:+ "] " +:+ dumps ev.2).

(** The body of the [try] statement. *)
Definition try_block (init_prompt : string) (verbose : bool) (c : Collaborators)
  : list Instr :=
  [ NewLog;
    SetStatus TaskStatus.RUNNING;
    SetStartedAt;
    LogTask "🚀 開始執行 Agent";
    LogTask "🔧 初始化 LLM...";
    Call (provider_ctor c);
    Call (get_model c);
    LogTask "✅ LLM 初始化完成";
    LogTask "🤖 建立 RefactorAgent...";
    Call (agent_ctor c);
    LogTask "✅ RefactorAgent 建立完成";
    LogTask ("▶️  執行 Agent，init_prompt: " +:+ PyStr.slice 0 100 init_prompt +:+ "...") ]
  ++ (handle_chunk_event <$> run_events c)
  ++ [ Call (run_outcome c);
       SetStatus TaskStatus.SUCCESS;
       SetFinishedAt;
       LogTask "✅ Agent 執行完成" ].

(** The body of [except Exception as e]. *)
Definition except_block (e : Exn) : list Instr :=
  let error_msg := "Agent execution failed: " +:+ exn_str e in
  [ LogTask ("❌ 錯誤: " +:+ error_msg);
    LogTask ("Traceback: " +:+ format_exc e);
    SetStatus TaskStatus.FAILED;
    SetErrorMessage error_msg;
    SetFinishedAt ].

(** Where the runner is: inside the [try] body or inside the handler, with
    the statements still to run; or the function has returned; or an
    exception has left it, one raised inside the handler or one the handler
    does not catch. *)
Inductive Runner :=
  | Try (rest : list Instr)
  | Except (rest : list Instr)
  | Returned
  | Propagated (e : Exn)
  | Exited (b : BaseExn).

Definition start_runner (init_prompt : string) (verbose : bool) (c : Collaborators)
  : Runner :=
  Try (try_block init_prompt verbose c).

(** One statement of the runner.  A call that does not return keeps the
    runner where it is. *)
Definition runner_step (id : string) (σ : Store) (r : Runner) : Store * Runner :=
  match r with
  | Try [] => (σ, Returned)
  | Try (i :: rest) =>
      match exec id i σ with
      | Ok σ' => (σ', Try rest)
      | Raise e => (σ, Except (except_block e))
      | Exit b => (σ, Exited b)
      | Hang => (σ, r)
      end
  | Except [] => (σ, Returned)
  | Except (i :: rest) =>
      match exec id i σ with
      | Ok σ' => (σ', Except rest)
      | Raise e => (σ, Propagated e)
      | Exit b => (σ, Exited b)
      | Hang => (σ, r)
      end
  | Returned => (σ, Returned)
  | Propagated e => (σ, Propagated e)
  | Exited b => (σ, Exited b)
  end.

(** A block run without interruption: the store it leaves, and how it ends
    ([Returns] when its last statement is done). *)
Fixpoint run_block (id : string) (body : list Instr) (σ : Store) : Store * Outcome :=
  match body with
  | [] => (σ, Returns)
  | i :: rest =>
      match exec id i σ with
      | Ok σ' => run_block id rest σ'
      | Raise e => (σ, Raises e)
      | Exit b => (σ, Exits b)
      | Hang => (σ, Hangs)
      end
  end.

(** def execute_agent(task_id, init_prompt, verbose), run without
    interruption: the store it leaves and how the call ends. *)
Definition execute_agent (id init_prompt : string) (verbose : bool)
    (c : Collaborators) (σ : Store) : Store * Outcome :=
  match run_block id (try_block init_prompt verbose c) σ with
  | (σ1, Raises e) => run_block id (except_block e) σ1
  | (σ1, o) => (σ1, o)
  end.

(** How the first collaborator call that does not return normally ends; the
    later ones are not reached.  [Returns] when all of them return. *)
Definition first_end (c : Collaborators) : Outcome :=
  match provider_ctor c with
  | Returns =>
      match get_model c with
      | Returns =>
          match agent_ctor c with
          | Returns => run_outcome c
          | o => o
          end
      | o => o
      end
  | o => o
  end.

(** The exception that takes the runner into its handler, if any. *)
Definition first_raise (c : Collaborators) : option Exn :=
  match first_end c with
  | Raises e => Some e
  | _ => None
  end.

End Runner.

(** ** The HTTP interface *)

(** What an endpoint hands back: its response model, or the [HTTPException]
    it raises. *)
Inductive Http (A : Type) :=
  | Response (a : A)
  | HTTPException (status_code : nat) (detail : string).
Arguments Response {A} a.
Arguments HTTPException {A} status_code detail.

Module RunRequest.
Record t := { init_prompt : string; verbose : bool }.
End RunRequest.

Module RunResponse.
Record t := { task_id : string; status : string; message : string }.
End RunResponse.

Module TaskStatusResponse.
Record t := {
  task_id : string;
  status : string;
  created_at : string;
  started_at : option string;
  finished_at : option string;
  error_message : option string
}.
End TaskStatusResponse.

(** POST /run, the part before the background task starts; [id] is the value
    of [str(uuid.uuid4())]. *)
Definition run_agent (id : string) (request : RunRequest.t) (σ : Store)
  : Store * RunResponse.t :=
  (set_tasks <[id := {| task_id := id;
                        status := TaskStatus.PENDING;
                        init_prompt := RunRequest.init_prompt request;
                        created_at := now σ;
                        started_at := None;
                        finished_at := None;
                        error_message := None |}]> σ,
   {| RunResponse.task_id := id;
      RunResponse.status := TaskStatus.PENDING;
      RunResponse.message := "Agent 任務已啟動，正在背景執行" |}).

(** GET /tasks/{task_id} *)
Definition get_task_status (id : string) (σ : Store) : Http TaskStatusResponse.t :=
  match tasks σ !! id with
  | None => HTTPException 404 "Task not found"
  | Some task =>
      Response {| TaskStatusResponse.task_id := task_id task;
                  TaskStatusResponse.status := status task;
                  TaskStatusResponse.created_at := created_at task;
                  TaskStatusResponse.started_at := started_at task;
                  TaskStatusResponse.finished_at := finished_at task;
                  TaskStatusResponse.error_message := error_message task |}
  end.

(** ** The relay: [stream_task_logs] and its [event_generator] *)

(** A dict yielded to [EventSourceResponse]. *)
Record Event := {
  event : string;
  data : string
}.

(** [task["status"] in [TaskStatus.SUCCESS, TaskStatus.FAILED]] *)
Definition is_terminal (s : string) : bool :=
  String.eqb s TaskStatus.SUCCESS || String.eqb s TaskStatus.FAILED.

(** Where the generator is.  [last_index] is its local variable;
    [current_logs] is the reference read from [task_logs], [new_logs] the
    part of the slice [current_logs[last_index:]] not yet iterated over. *)
Inductive Relay :=
  | LoopHead (last_index : nat)
  | ForLoop (last_index : nat) (current_logs : loc) (new_logs : list LogRecord)
  | StatusCheck (last_index : nat)
  | Sleeping (last_index : nat)
  | Closed
  | Aborted (e : Exn).

(** What the body of the [for] loop does with one record: it yields an
    event, or an exception leaves it (and with it the generator, which has
    no handler around the loop). *)
Inductive Framed :=
  | Yields (ev : Event)
  | Throws (e : Exn).

Section Relay.
Context `{JsonLib}.

(** The generic framing: event [log] with [{timestamp, message}]. *)
Definition log_event (log : LogRecord) : Event :=
  {| event := "log";
     data := dumps (JObj [("timestamp", JStr (timestamp log));
                          ("message", JStr (message log))]) |}.

(** The body of [for log in new_logs].  The clause [except (ValueError,
    json_lib.JSONDecodeError)] catches the [ValueError] of [index] and of
    [loads]; any other exception of [loads] is not caught. *)
Definition frame (log : LogRecord) : Framed :=
  let message := message log in
  if PyStr.startswith "[" message && PyStr.contains "]" message then
    match PyStr.index "]" message with
    | Some close_bracket =>
        let event_type := PyStr.slice 1 close_bracket message in
        let json_data := PyStr.slice_from (close_bracket + 2) message in
        match loads json_data with
        | Decoded data => Yields {| event := event_type; data := dumps data |}
        | Rejected => Yields (log_event log)
        | Failed e => Throws e
        end
    | None => Yields (log_event log)
    end
  else Yields (log_event log).

(** The final event. *)
Definition status_event (task : Task) : Event :=
  {| event := "status";
     data := dumps (JObj [("status", JStr (PyStr.lower (status task)));
                          ("finished_at", json_opt (finished_at task));
                          ("error_message", json_opt (error_message task))]) |}.

(** One step of the generator against the store as it is now, with the
    events it yields.  Entries of [tasks] are never removed, so the dict
    bound to [task] at the loop head is still the one the store holds when
    its status is read.  [Closed] is the generator after [break];
    [Aborted e] is the generator that the exception [e] has left. *)
Definition relay_step (id : string) (σ : Store) (r : Relay) : Relay * list Event :=
  match r with
  | LoopHead last_index =>
      match tasks σ !! id with
      | None => (Closed, [])
      | Some _ =>
          match task_logs σ !! id with
          | Some current_logs =>
              (ForLoop last_index current_logs (drop last_index (deref σ current_logs)), [])
          | None => (StatusCheck last_index, [])
          end
      end
  | ForLoop last_index current_logs (log :: new_logs) =>
      match frame log with
      | Yields ev => (ForLoop last_index current_logs new_logs, [ev])
      | Throws e => (Aborted e, [])
      end
  | ForLoop _ current_logs [] =>
      (StatusCheck (length (deref σ current_logs)), [])
  | StatusCheck last_index =>
      match tasks σ !! id with
      | Some task =>
          if is_terminal (status task) then (Closed, [status_event task])
          else (Sleeping last_index, [])
      | None => (Closed, [])
      end
  | Sleeping last_index => (LoopHead last_index, [])
  | Closed => (Closed, [])
  | Aborted e => (Aborted e, [])
  end.

(** GET /tasks/{task_id}/stream *)
Definition stream_task_logs (id : string) (σ : Store) : Http Relay :=
  match tasks σ !! id with
  | None => HTTPException 404 "Task not found"
  | Some _ => Response (LoopHead 0)
  end.

(** [n] steps of a relay; [env k] is the store the [k]-th step sees, so the
    runner and the clock may do anything in between. *)
Fixpoint relay_run (id : string) (env : nat → Store) (n : nat) (r : Relay)
  : Relay * list Event :=
  match n with
  | 0 => (r, [])
  | S n' =>
      let '(r1, es1) := relay_step id (env 0) r in
      let '(r2, es2) := relay_run id (λ k, env (S k)) n' r1 in
      (r2, es1 ++ es2)
  end.

End Relay.

(** ** The server as a whole *)

(** One client connection: the task it follows, its generator and what the
    generator has yielded so far. *)
Record Stream := {
  stream_task : string;
  stream_relay : Relay;
  stream_events : list Event
}.

Record System := {
  store : Store;
  runners : gmap string Runner;
  streams : gmap nat Stream
}.

(** The server at start-up: no task, no log, the clock not yet read. *)
Definition initial : System :=
  {| store := {| tasks := ∅; task_logs := ∅; heap := []; now := EmptyString |};
     runners := ∅;
     streams := ∅ |}.

(** What can happen next. *)
Inductive Action :=
  | Submit (id : string) (request : RunRequest.t) (c : Collaborators)
  | Step (id : string)
  | Open (conn : nat) (id : string)
  | Next (conn : nat)
  | Tick (ts : string).

Section Server.
Context `{JsonLib} `{Interpreter}.

Definition act (a : Action) (s : System) : System :=
  match a with
  | Submit id request c =>
      (* uuid4 does not return an id again *)
      match tasks (store s) !! id with
      | Some _ => s
      | None =>
          {| store := (run_agent id request (store s)).1;
             runners := <[id := start_runner (RunRequest.init_prompt request)
                                             (RunRequest.verbose request) c]> (runners s);
             streams := streams s |}
      end
  | Step id =>
      match runners s !! id with
      | None => s
      | Some r =>
          let '(σ', r') := runner_step id (store s) r in
          {| store := σ'; runners := <[id := r']> (runners s); streams := streams s |}
      end
  | Open conn id =>
      match stream_task_logs id (store s) with
      | Response r =>
          {| store := store s; runners := runners s;
             streams := <[conn := {| stream_task := id; stream_relay := r;
                                     stream_events := [] |}]> (streams s) |}
      | HTTPException _ _ => s
      end
  | Next conn =>
      match streams s !! conn with
      | None => s
      | Some st =>
          let '(r', es) := relay_step (stream_task st) (store s) (stream_relay st) in
          {| store := store s; runners := runners s;
             streams := <[conn := {| stream_task := stream_task st; stream_relay := r';
                                     stream_events := stream_events st ++ es |}]> (streams s) |}
      end
  | Tick ts =>
      {| store := tick ts (store s); runners := runners s; streams := streams s |}
  end.

Definition run (acts : list Action) (s : System) : System :=
  foldl (λ s a, act a s) s acts.

End Server.

(** ** Vocabulary of the properties *)

(** The status is SUCCESS or FAILED. *)
Definition terminal (t : Task) : Prop :=
  status t = TaskStatus.SUCCESS ∨ status t = TaskStatus.FAILED.

(** Statements that leave every task dict as it is. *)
Definition neutral (i : Instr) : Prop :=
  match i with
  | LogTask _ | Call _ => True
  | _ => False
  end.

Definition logging (i : Instr) : Prop :=
  match i with
  | LogTask _ => True
  | _ => False
  end.

(** What one statement does to the dict of the runner's own task, when it
    does not raise. *)
Definition task_effect (ts : string) (i : Instr) (t : Task) : Task :=
  match i with
  | SetStatus s => with_status s t
  | SetStartedAt => with_started_at ts t
  | SetFinishedAt => with_finished_at ts t
  | SetErrorMessage m => with_error_message m t
  | NewLog | LogTask _ | Call _ => t
  end.

(** The last statements of the [try] body and of the handler. *)
Definition success_tail : list Instr :=
  [ SetStatus TaskStatus.SUCCESS; SetFinishedAt; LogTask "✅ Agent 執行完成" ].

Definition failure_tail (m : string) : list Instr :=
  [ SetStatus TaskStatus.FAILED; SetErrorMessage m; SetFinishedAt ].

(** A task in status [s] whose closing fields are still unset. *)
Definition unfinished (s : string) (t : Task) : Prop :=
  status t = s ∧ finished_at t = None ∧ error_message t = None.

(** The fields of a task as the position of its runner determines them. *)
Inductive consistent : Runner → Task → Prop :=
  | at_new_log mid t :
      Forall neutral mid → unfinished TaskStatus.PENDING t →
      consistent (Try (NewLog :: SetStatus TaskStatus.RUNNING :: SetStartedAt
                         :: mid ++ success_tail)) t
  | at_set_running mid t :
      Forall neutral mid → unfinished TaskStatus.PENDING t →
      consistent (Try (SetStatus TaskStatus.RUNNING :: SetStartedAt
                         :: mid ++ success_tail)) t
  | at_set_started mid t :
      Forall neutral mid → unfinished TaskStatus.RUNNING t →
      consistent (Try (SetStartedAt :: mid ++ success_tail)) t
  | in_body mid t :
      Forall neutral mid → unfinished TaskStatus.RUNNING t →
      consistent (Try (mid ++ success_tail)) t
  | at_success_finish msg t :
      unfinished TaskStatus.SUCCESS t →
      consistent (Try [SetFinishedAt; LogTask msg]) t
  | after_success rest t :
      Forall logging rest →
      status t = TaskStatus.SUCCESS → is_Some (finished_at t) → error_message t = None →
      consistent (Try rest) t
  | in_handler pre m t :
      Forall logging pre → m ≠ EmptyString → unfinished TaskStatus.RUNNING t →
      consistent (Except (pre ++ failure_tail m)) t
  | at_set_error m t :
      m ≠ EmptyString → unfinished TaskStatus.FAILED t →
      consistent (Except [SetErrorMessage m; SetFinishedAt]) t
  | at_failure_finish m t :
      m ≠ EmptyString →
      status t = TaskStatus.FAILED → finished_at t = None → error_message t = Some m →
      consistent (Except [SetFinishedAt]) t
  | after_failure m t :
      m ≠ EmptyString →
      status t = TaskStatus.FAILED → is_Some (finished_at t) → error_message t = Some m →
      consistent (Except []) t
  | returned_success t :
      status t = TaskStatus.SUCCESS → is_Some (finished_at t) → error_message t = None →
      consistent Returned t
  | returned_failure m t :
      m ≠ EmptyString →
      status t = TaskStatus.FAILED → is_Some (finished_at t) → error_message t = Some m →
      consistent Returned t
  | exited_running b t :
      unfinished TaskStatus.RUNNING t →
      consistent (Exited b) t.

(** Functions on task dicts that leave the fields written at creation alone. *)
Definition keeps_identity (f : Task → Task) : Prop :=
  ∀ t, task_id (f t) = task_id t
       ∧ init_prompt (f t) = init_prompt t
       ∧ created_at (f t) = created_at t.

(** Every dict is stored under its own [task_id]. *)
Definition ids_match (σ : Store) : Prop :=
  ∀ id t, tasks σ !! id = Some t → task_id t = id.

(** Every task of the store has a runner, and its fields are where the
    runner's position puts them. *)
Definition tasks_follow_runners (s : System) : Prop :=
  ∀ id t, tasks (store s) !! id = Some t →
    ∃ r, runners s !! id = Some r ∧ consistent r t.

(** How the first [Call] of a block that does not return normally ends
    ([Returns] when there is none), and the statements run before it. *)
Fixpoint ending (body : list Instr) : Outcome :=
  match body with
  | [] => Returns
  | Call Returns :: rest => ending rest
  | Call o :: _ => o
  | _ :: rest => ending rest
  end.

Fixpoint effective (body : list Instr) : list Instr :=
  match body with
  | [] => []
  | Call Returns :: rest => Call Returns :: effective rest
  | Call _ :: _ => []
  | i :: rest => i :: effective rest
  end.

(** The values a block writes to the [status] field, in order. *)
Fixpoint statuses_written (body : list Instr) : list string :=
  match body with
  | [] => []
  | SetStatus s :: rest => s :: statuses_written rest
  | _ :: rest => statuses_written rest
  end.

(** Statements whose log message, if any, does not open with a bracket. *)
Definition plain (i : Instr) : Prop :=
  match i with
  | LogTask msg => PyStr.startswith "[" msg = false
  | _ => True
  end.

(** The statements a runner still has before it. *)
Definition pending_instrs (r : Runner) : list Instr :=
  match r with
  | Try rest | Except rest => rest
  | Returned | Propagated _ | Exited _ => []
  end.

(** The records a block appends when it runs at time [ts]. *)
Fixpoint appended (ts : string) (body : list Instr) : list LogRecord :=
  match body with
  | [] => []
  | LogTask msg :: rest => {| timestamp := ts; message := msg |} :: appended ts rest
  | _ :: rest => appended ts rest
  end.

(** A generator that has come to its end, by [break] or by an exception. *)
Definition finished (r : Relay) : bool :=
  match r with
  | Closed | Aborted _ => true
  | _ => false
  end.

(** The records a generator still iterates over before it next reads the
    status, when it finds the store [σ] at its next reading of the log; and
    the step at which that reading takes place. *)
Definition to_send (id : string) (σ : Store) (r : Relay) : list LogRecord :=
  match r with
  | LoopHead last_index | Sleeping last_index =>
      drop last_index (default [] (logs_of σ id))
  | ForLoop _ _ new_logs => new_logs
  | StatusCheck _ | Closed | Aborted _ => []
  end.

Definition reads_log_at (r : Relay) : nat :=
  match r with
  | Sleeping _ => 1
  | _ => 0
  end.

Section Frames.
Context `{JsonLib}.

(** The [for] loop over a slice: the events it yields, and the exception
    that ends it if the body raises at some record. *)
Fixpoint frames (logs : list LogRecord) : list Event * option Exn :=
  match logs with
  | [] => ([], None)
  | log :: rest =>
      match frame log with
      | Yields ev => let '(evs, e) := frames rest in (ev :: evs, e)
      | Throws e => ([], Some e)
      end
  end.

End Frames.

Section Steps.
Context `{JsonLib} `{Interpreter}.

(** The runner run statement by statement while the clock moves: the
    [k]-th statement runs at time [times !! k]. *)
Fixpoint runner_steps (id : string) (times : list string) (σ : Store) (r : Runner)
  : Store * Runner :=
  match times with
  | [] => (σ, r)
  | ts :: times' =>
      let '(σ', r') := runner_step id (tick ts σ) r in
      runner_steps id times' σ' r'
  end.

(** The statement a runner is about to run. *)
Definition next_instr (r : Runner) : option Instr :=
  match r with
  | Try (i :: _) | Except (i :: _) => Some i
  | _ => None
  end.

(** The records appended by those steps, in order. *)
Fixpoint steps_appended (id : string) (times : list string) (σ : Store) (r : Runner)
  : list LogRecord :=
  match times with
  | [] => []
  | ts :: times' =>
      let '(σ', r') := runner_step id (tick ts σ) r in
      match next_instr r with
      | Some (LogTask msg) => [{| timestamp := ts; message := msg |}]
      | _ => []
      end ++ steps_appended id times' σ' r'
  end.

End Steps.

(** ** Vocabulary of the further properties *)

(** The steps one turn of the generator's loop takes, from its head back to
    its head, against a store that does not change meanwhile. *)
Definition poll_steps (id : string) (σ : Store) (last_index : nat) : nat :=
  match logs_of σ id with
  | Some l => length (drop last_index l) + 4
  | None => 3
  end.

(** The log a reader has seen after a run of stores, each read in turn. *)
Definition final_log (id : string) (l : list LogRecord) (σs : list Store)
  : list LogRecord :=
  foldl (λ l σ, default l (logs_of σ id)) l σs.

(** Stores in which the task is known and not terminal, and whose log for the
    task extends [l], each one the log of the one before. *)
Fixpoint appended_between (id : string) (l : list LogRecord) (σs : list Store) : Prop :=
  match σs with
  | [] => True
  | σ :: rest =>
      ∃ t more,
        tasks σ !! id = Some t ∧ is_terminal (status t) = false
        ∧ logs_of σ id = Some (l ++ more)
        ∧ appended_between id (l ++ more) rest
  end.

(** How far a status is on the way PENDING, RUNNING, SUCCESS or FAILED. *)
Definition status_rank (s : string) : nat :=
  if String.eqb s TaskStatus.PENDING then 0
  else if String.eqb s TaskStatus.RUNNING then 1
  else 2.

(** The runner has not yet run its write of [started_at]. *)
Definition awaiting_start (r : Runner) : bool :=
  match r with
  | Try (NewLog :: _) => true
  | Try (SetStatus _ :: SetStartedAt :: _) => true
  | Try (SetStartedAt :: _) => true
  | _ => false
  end.

(** [started_at] is set exactly from that write on. *)
Definition start_follows (r : Runner) (t : Task) : Prop :=
  if awaiting_start r then started_at t = None else is_Some (started_at t).

Definition tasks_started_by_runners (s : System) : Prop :=
  ∀ id t, tasks (store s) !! id = Some t →
    ∃ r, runners s !! id = Some r ∧ consistent r t ∧ start_follows r t.

(** Every reference held by [task_logs] points to a list object of the heap,
    and no two ids hold a reference to the same one. *)
Definition wf_logs (σ : Store) : Prop :=
  (∀ id l, task_logs σ !! id = Some l → l < length (heap σ))
  ∧ (∀ id1 id2 l, task_logs σ !! id1 = Some l → task_logs σ !! id2 = Some l → id1 = id2).

(** The string does not begin in the middle of a code point, as is the case
    of the encoding of any Python [str]. *)
Definition starts_clean (s : string) : Prop :=
  (PyStr.group_bytes s).1 = EmptyString.

Section Polls.
Context `{JsonLib}.

(** Turns of the generator's loop, one against each store in turn. *)
Fixpoint relay_polls (id : string) (σs : list Store) (r : Relay) : Relay * list Event :=
  match σs with
  | [] => (r, [])
  | σ :: rest =>
      match r with
      | LoopHead last_index =>
          let '(r1, es1) := relay_run id (λ _, σ) (poll_steps id σ last_index) r in
          let '(r2, es2) := relay_polls id rest r1 in
          (r2, es1 ++ es2)
      | _ => (r, [])
      end
  end.

End Polls.

(** ** A reference [json] codec

    An executable codec for the fragment of JSON without fractions,
    exponents, [NaN]/[Infinity] and [\u] escapes, written after the grammar
    of RFC 8259 and the output format of [json.dumps] (separators [", "] and
    [": "], non-ASCII text left as it is).  Like the decoder of CPython it
    gives up with [RecursionError] on arrays and objects nested too deep;
    the depth at which CPython does so depends on its version and on the
    stack in use, and is taken to be the recursion limit here.  The general
    results below hold for every [JsonLib]; this one runs the scenarios. *)

Module RefJson.

Definition dquote : ascii := ascii_of_nat 34.
Definition backslash : ascii := ascii_of_nat 92.

Definition is_ws (c : ascii) : bool :=
  let n := nat_of_ascii c in
  (n =? 32) || (n =? 9) || (n =? 10) || (n =? 13).

Definition is_digit (c : ascii) : bool :=
  let n := nat_of_ascii c in (48 <=? n) && (n <=? 57).

Fixpoint skip_ws (s : string) : string :=
  match s with
  | String c rest => if is_ws c then skip_ws rest else s
  | EmptyString => s
  end.

(** Strips the literal [lit] from the front of [s]. *)
Fixpoint expect (lit s : string) : option string :=
  match lit, s with
  | EmptyString, _ => Some s
  | String a lit', String b s' => if Ascii.eqb a b then expect lit' s' else None
  | String _ _, EmptyString => None
  end.

Fixpoint digits (acc : N) (s : string) : N * string :=
  match s with
  | String c rest =>
      if is_digit c
      then digits (10 * acc + N.of_nat (nat_of_ascii c - 48)) rest
      else (acc, s)
  | EmptyString => (acc, s)
  end.

(** A number stops at the first non-digit; what follows must not turn it
    into a fraction or an exponent. *)
Definition no_fraction (s : string) : bool :=
  match s with
  | String c _ =>
      let n := nat_of_ascii c in
      negb ((n =? 46) || (n =? 69) || (n =? 101))
  | EmptyString => true
  end.

(** int = "0" | digit1-9 digit* *)
Definition natural (s : string) : option (N * string) :=
  match s with
  | String c rest =>
      if negb (is_digit c) then None
      else
        let '(n, rest') := if nat_of_ascii c =? 48 then (0%N, rest) else digits 0 s in
        if no_fraction rest' then Some (n, rest') else None
  | EmptyString => None
  end.

Definition unescape (c : ascii) : option ascii :=
  let n := nat_of_ascii c in
  if n =? 34 then Some dquote
  else if n =? 92 then Some backslash
  else if n =? 47 then Some (ascii_of_nat 47)
  else if n =? 98 then Some (ascii_of_nat 8)
  else if n =? 102 then Some (ascii_of_nat 12)
  else if n =? 110 then Some (ascii_of_nat 10)
  else if n =? 114 then Some (ascii_of_nat 13)
  else if n =? 116 then Some (ascii_of_nat 9)
  else None.

(** The characters after an opening quote, up to the closing one. *)
Fixpoint string_body (s : string) : option (string * string) :=
  match s with
  | EmptyString => None
  | String c rest =>
      if Ascii.eqb c dquote then Some (EmptyString, rest)
      else if Ascii.eqb c backslash then
        match rest with
        | String e rest' =>
            c' ← unescape e;
            '(body, rest'') ← string_body rest';
            Some (String c' body, rest'')
        | EmptyString => None
        end
      else if nat_of_ascii c <? 32 then None
      else
        '(body, rest') ← string_body rest;
        Some (String c body, rest')
  end.

Definition head_is (n : nat) (s : string) : bool :=
  match s with
  | String c _ => nat_of_ascii c =? n
  | EmptyString => false
  end.

Definition tail (s : string) : string :=
  match s with
  | String _ rest => rest
  | EmptyString => EmptyString
  end.

(** What a parser makes of its input: a result and the rest of the input,
    a syntax error, or a nesting deeper than it follows. *)
Inductive Parse (A : Type) :=
  | Parsed (a : A)
  | Invalid
  | TooDeep.
Arguments Parsed {A} a.
Arguments Invalid {A}.
Arguments TooDeep {A}.

#[local] Instance parse_bind : MBind Parse := λ A B f p,
  match p with
  | Parsed a => f a
  | Invalid => Invalid
  | TooDeep => TooDeep
  end.

Definition of_option {A : Type} (o : option A) : Parse A :=
  match o with
  | Some a => Parsed a
  | None => Invalid
  end.

(** [sys.getrecursionlimit()], as the interpreter starts with. *)
Definition recursion_limit : nat := 1000.

(** [depth] is the number of arrays and objects that may still be entered;
    [fuel] bounds the length of the input. *)
Fixpoint value (fuel depth : nat) (s : string) : Parse (JSON * string) :=
  match fuel with
  | 0 => Invalid
  | S fuel =>
      let s := skip_ws s in
      if head_is 110 s then rest ← of_option (expect "null" s); Parsed (JNull, rest)
      else if head_is 116 s then rest ← of_option (expect "true" s); Parsed (JBool true, rest)
      else if head_is 102 s then rest ← of_option (expect "false" s); Parsed (JBool false, rest)
      else if head_is 34 s then
        '(str, rest) ← of_option (string_body (tail s)); Parsed (JStr str, rest)
      else if head_is 45 s then
        '(n, rest) ← of_option (natural (tail s)); Parsed (JInt (- Z.of_N n), rest)
      else if head_is 91 s then
        match depth with
        | 0 => TooDeep
        | S depth =>
            let s1 := skip_ws (tail s) in
            if head_is 93 s1 then Parsed (JArr [], tail s1)
            else '(items, rest) ← elements fuel depth s1; Parsed (JArr items, rest)
        end
      else if head_is 123 s then
        match depth with
        | 0 => TooDeep
        | S depth =>
            let s1 := skip_ws (tail s) in
            if head_is 125 s1 then Parsed (JObj [], tail s1)
            else '(members, rest) ← members fuel depth s1; Parsed (JObj members, rest)
        end
      else
        '(n, rest) ← of_option (natural s); Parsed (JInt (Z.of_N n), rest)
  end
with elements (fuel depth : nat) (s : string) : Parse (list JSON * string) :=
  match fuel with
  | 0 => Invalid
  | S fuel =>
      '(v, rest) ← value fuel depth s;
      let rest := skip_ws rest in
      if head_is 93 rest then Parsed ([v], tail rest)
      else if head_is 44 rest then
        '(vs, rest') ← elements fuel depth (tail rest); Parsed (v :: vs, rest')
      else Invalid
  end
with members (fuel depth : nat) (s : string) : Parse (list (string * JSON) * string) :=
  match fuel with
  | 0 => Invalid
  | S fuel =>
      let s := skip_ws s in
      if head_is 34 s then
        '(k, rest) ← of_option (string_body (tail s));
        let rest := skip_ws rest in
        if head_is 58 rest then
          '(v, rest') ← value fuel depth (tail rest);
          let rest' := skip_ws rest' in
          if head_is 125 rest' then Parsed ([(k, v)], tail rest')
          else if head_is 44 rest' then
            '(kvs, rest'') ← members fuel depth (tail rest'); Parsed ((k, v) :: kvs, rest'')
          else Invalid
        else Invalid
      else Invalid
  end.

Definition RecursionError : Exn :=
  Error "RecursionError" "maximum recursion depth exceeded while decoding a JSON document".

(** json.loads(s) *)
Definition loads (s : string) : Decoding :=
  match value (S (2 * String.length s)) recursion_limit s with
  | Parsed (v, rest) =>
      match skip_ws rest with
      | EmptyString => Decoded v
      | _ => Rejected
      end
  | Invalid => Rejected
  | TooDeep => Failed RecursionError
  end.

Definition hex_digit (n : nat) : ascii :=
  if n <? 10 then ascii_of_nat (48 + n) else ascii_of_nat (87 + n).

Definition escape (c : ascii) : string :=
  let n := nat_of_ascii c in
  if n =? 34 then String backslash (String dquote EmptyString)
  else if n =? 92 then String backslash (String backslash EmptyString)
  else if n =? 10 then String backslash "n"
  else if n =? 13 then String backslash "r"
  else if n =? 9 then String backslash "t"
  else if n =? 8 then String backslash "b"
  else if n =? 12 then String backslash "f"
  else if n <? 32 then
    String backslash ("u00" +:+ String (hex_digit (n / 16)) (String (hex_digit (n mod 16)) EmptyString))
  else String c EmptyString.

Fixpoint escape_all (s : string) : string :=
  match s with
  | EmptyString => EmptyString
  | String c rest => escape c +:+ escape_all rest
  end.

Definition quote (s : string) : string :=
  String dquote (escape_all s +:+ String dquote EmptyString).

Fixpoint sep_by (sep : string) (parts : list string) : string :=
  match parts with
  | [] => EmptyString
  | [p] => p
  | p :: rest => p +:+ sep +:+ sep_by sep rest
  end.

(** json.dumps(j, ensure_ascii=False) *)
Fixpoint dumps (j : JSON) : string :=
  match j with
  | JNull => "null"
  | JBool true => "true"
  | JBool false => "false"
  | JInt z => pretty z
  | JFloat literal => literal
  | JStr s => quote s
  | JArr items => "[" +:+ sep_by ", " (map dumps items) +:+ "]"
  | JObj members =>
      "{" +:+ sep_by ", " (map (λ kv, quote kv.1 +:+ ": " +:+ dumps kv.2) members) +:+ "}"
  end.

#[global] Instance ref_json : JsonLib := Build_JsonLib loads dumps.

End RefJson.

(** ** A reference interpreter

    [repr] as CPython writes it for text whose code points beyond ASCII are
    all printable; of the traceback only the last line, the frames above it
    depend on the installation.  It runs the scenarios; the general results
    hold for every [Interpreter]. *)

Module RefInterpreter.

Definition squote : ascii := ascii_of_nat 39.

Fixpoint has (c : ascii) (s : string) : bool :=
  match s with
  | EmptyString => false
  | String b rest => Ascii.eqb b c || has c rest
  end.

Definition escape (quote c : ascii) : string :=
  let n := nat_of_ascii c in
  if Ascii.eqb c quote || (n =? 92) then String RefJson.backslash (String c EmptyString)
  else if n =? 9 then String RefJson.backslash "t"
  else if n =? 10 then String RefJson.backslash "n"
  else if n =? 13 then String RefJson.backslash "r"
  else if (n <? 32) || (n =? 127) then
    String RefJson.backslash
      (String "x" (String (RefJson.hex_digit (n / 16))
                     (String (RefJson.hex_digit (n mod 16)) EmptyString)))
  else String c EmptyString.

Fixpoint escape_all (quote : ascii) (s : string) : string :=
  match s with
  | EmptyString => EmptyString
  | String c rest => escape quote c +:+ escape_all quote rest
  end.

(** repr(s): apostrophes around the text, double quotes when it holds an
    apostrophe and no double quote. *)
Definition repr (s : string) : string :=
  let quote := if has squote s && negb (has RefJson.dquote s)
               then RefJson.dquote else squote in
  String quote (escape_all quote s +:+ String quote EmptyString).

(** The last line of the text of [traceback.format_exc()]. *)
Definition format_exc (e : Exn) : string :=
  match e with
  | KeyError key => "KeyError: " +:+ repr key
  | Error name str => name +:+ ": " +:+ str
  end.

#[global] Instance ref_interpreter : Interpreter := Build_Interpreter repr format_exc.

End RefInterpreter.

(** ** Scenarios, run with the reference codec and interpreter *)

Module Scenario.

Definition request : RunRequest.t :=
  {| RunRequest.init_prompt := "echo-test"; RunRequest.verbose := true |}.

(** Scenario A: one callback [("progress", {"pct": 50})], then the body
    returns. *)
Definition echo : Collaborators :=
  {| provider_ctor := Returns; get_model := Returns; agent_ctor := Returns;
     run_events := [("progress", JObj [("pct", JInt 50)])];
     run_outcome := Returns |}.

(** Scenario B: the body raises after zero callbacks. *)
Definition boom : Exn := Error "RuntimeError" "boom".

Definition failing : Collaborators :=
  {| provider_ctor := Returns; get_model := Returns; agent_ctor := Returns;
     run_events := [];
     run_outcome := Raises boom |}.

(** The task of scenario B once its runner has returned. *)
Definition failed_task : Task :=
  {| task_id := "t1"; status := "failed"; init_prompt := "echo-test";
     created_at := "10:00:00"; started_at := Some "10:00:01";
     finished_at := Some "10:00:01";
     error_message := Some "Agent execution failed: boom" |}.

(** The task is submitted at 10:00:00 and its runner makes [n] steps at
    10:00:01. *)
Definition started (c : Collaborators) (n : nat) : list Action :=
  [Tick "10:00:00"; Submit "t1" request c; Tick "10:00:01"] ++ replicate n (Step "t1").

(** The same submission with another prompt. *)
Definition other_request : RunRequest.t :=
  {| RunRequest.init_prompt := "another prompt"; RunRequest.verbose := true |}.

Definition submitted (request : RunRequest.t) : list Action :=
  [Tick "10:00:00"; Submit "t1" request echo].

(** The store right after POST /run, and the task it holds. *)
Definition pending_store : Store := store (run (submitted request) initial).

Definition pending_task : Task :=
  {| task_id := "t1"; status := "pending"; init_prompt := "echo-test";
     created_at := "10:00:00"; started_at := None; finished_at := None;
     error_message := None |}.

(** The store once the runner of scenario B has returned; nothing changes
    afterwards. *)
Definition failed_store : Store := store (run (started failing 30) initial).

Definition settled (k : nat) : Store := failed_store.

(** A client follows the task of scenario A while it runs.  The runner has
    logged one record when the generator takes its slice and yields it; while
    the generator is suspended at that [yield], the runner logs a second
    record; then the generator resumes, finds the task still running and
    sleeps; the runner runs to its end, and then the generator does. *)
Definition racing_poll : list Action :=
  started echo 4 ++ [Open 0 "t1"; Next 0; Next 0; Step "t1"; Next 0].

Definition racing : list Action :=
  racing_poll ++ [Next 0] ++ replicate 20 (Step "t1") ++ replicate 20 (Next 0).

(** A client opens its stream right after the runner of scenario A has
    written SUCCESS, and reads it to the end before the runner goes on. *)
Definition early_reader : list Action :=
  started echo 15
  ++ Open 0 "t1" :: replicate 12 (Next 0)
  ++ [Step "t1"; Step "t1"; Step "t1"].

(** The store of scenario A after [n] statements of the runner. *)
Definition running_store (n : nat) : Store := store (run (started echo n) initial).

(** Two tasks, both running. *)
Definition two_tasks : list Action :=
  started echo 6
  ++ [Submit "t2" other_request failing; Step "t2"; Step "t2"; Step "t2"; Step "t2"].

(** The task of scenario A once its runner has returned, and the store
    then. *)
Definition succeeded_task : Task :=
  {| task_id := "t1"; status := "success"; init_prompt := "echo-test";
     created_at := "10:00:00"; started_at := Some "10:00:01";
     finished_at := Some "10:00:01"; error_message := None |}.

Definition succeeded (k : nat) : Store := store (run (started echo 30) initial).

(** ['[' * n] *)
Fixpoint brackets (n : nat) : string :=
  match n with
  | 0 => EmptyString
  | S n => String "[" (brackets n)
  end.

(** Scenario C: the agent reports an event whose type holds a closing
    bracket followed by two thousand opening ones, then the event of
    scenario A, and returns.  A client opens its stream afterwards and reads
    on. *)
Definition deep : Collaborators :=
  {| provider_ctor := Returns; get_model := Returns; agent_ctor := Returns;
     run_events := [("x] " +:+ brackets 2000, JObj []);
                    ("progress", JObj [("pct", JInt 50)])];
     run_outcome := Returns |}.

Definition deep_stream : list Action :=
  started deep 30 ++ Open 0 "t1" :: replicate 30 (Next 0).

(** The record the first callback of scenario C leaves in the log. *)
Definition too_deep : LogRecord :=
  {| timestamp := "10:00:01"; message := "[x] " +:+ brackets 2000 +:+ "] {}" |}.

(** Scenario D: a callback whose event type is [status]. *)
Definition reporting : Collaborators :=
  {| provider_ctor := Returns; get_model := Returns; agent_ctor := Returns;
     run_events := [("status", JObj [("status", JStr "half-way")])];
     run_outcome := Returns |}.

Definition status_stream : list Action :=
  started reporting 30 ++ Open 0 "t1" :: replicate 30 (Next 0).

(** Scenario E: the agent calls [sys.exit(1)]. *)
Definition exiting : Collaborators :=
  {| provider_ctor := Returns; get_model := Returns; agent_ctor := Returns;
     run_events := [];
     run_outcome := Exits (SystemExit 1) |}.

(** A record that opens like a structured event but carries no JSON. *)
Definition not_json : LogRecord :=
  {| timestamp := "10:00:02"; message := "[tool_calls] not-json" |}.

Definition progress : LogRecord :=
  {| timestamp := "10:00:03"; message := "[progress] {" +:+ RefJson.quote "pct" +:+ ": 50}" |}.

Definition progress_event : Event :=
  {| event := "progress"; data := "{" +:+ RefJson.quote "pct" +:+ ": 50}" |}.

End Scenario.

(** * Properties *)

(** ** The store under the runner's statements *)

Lemma tasks_log_task id msg σ : tasks (log_task id msg σ) = tasks σ.
Proof.
  unfold log_task. destruct (task_logs σ !! id) as [l|] eqn:E.
  - rewrite E. reflexivity.
  - cbn. rewrite lookup_insert_eq. reflexivity.
Qed.

Lemma now_log_task id msg σ : now (log_task id msg σ) = now σ.
Proof.
  unfold log_task. destruct (task_logs σ !! id) as [l|] eqn:E.
  - rewrite E. reflexivity.
  - cbn. rewrite lookup_insert_eq. reflexivity.
Qed.

Lemma set_field_ok id f σ t :
  tasks σ !! id = Some t →
  set_field id f σ = Ok (set_tasks <[id := f t]> σ).
Proof. intros E. unfold set_field. rewrite E. reflexivity. Qed.

Lemma insert_as_alter (m : gmap string Task) id f t :
  m !! id = Some t → <[id := f t]> m = alter f id m.
Proof.
  intros E. apply map_eq. intros j. rewrite lookup_insert, lookup_alter.
  destruct (decide (id = j)) as [<-|]; [rewrite E|]; reflexivity.
Qed.

(** A statement that does not raise changes, in [tasks], the runner's own
    task only, and as [task_effect] says. *)
Lemma exec_tasks id i σ σ' :
  exec id i σ = Ok σ' →
  tasks σ' = alter (task_effect (now σ) i) id (tasks σ) ∧ now σ' = now σ.
Proof.
  assert (Hset : ∀ f, set_field id f σ = Ok σ' →
            tasks σ' = alter f id (tasks σ) ∧ now σ' = now σ).
  { intros f. unfold set_field. destruct (tasks σ !! id) as [t|] eqn:E; [|discriminate].
    intros [= <-]. cbn. split; [|reflexivity]. by apply insert_as_alter. }
  assert (Hid : tasks σ = alter (λ t : Task, t) id (tasks σ)).
  { symmetry. by apply alter_id. }
  destruct i as [| s | | | m | msg | [|e|b|]]; cbn; try (apply Hset); try discriminate.
  - intros [= <-]. cbn. done.
  - intros [= <-]. rewrite tasks_log_task, now_log_task. done.
  - intros [= <-]. done.
Qed.

(** On a known task only the call of a collaborator fails to complete, and
    it ends the way the collaborator does. *)
Lemma exec_known id i σ t :
  tasks σ !! id = Some t →
  match exec id i σ with
  | Ok _ => True
  | Raise e => i = Call (Raises e)
  | Exit b => i = Call (Exits b)
  | Hang => i = Call Hangs
  end.
Proof.
  intros E. destruct i as [| s | | | m | msg | [|e|b|]]; cbn;
    rewrite ?(set_field_ok _ _ _ _ E); done.
Qed.

Lemma task_effect_keeps_identity ts i : keeps_identity (task_effect ts i).
Proof. intros t. by destruct i. Qed.

(** ** The fields of a task follow the position of its runner *)

Lemma neutral_effect ts i t : neutral i → task_effect ts i t = t.
Proof. by destruct i. Qed.

Section Consistency.
Context `{JsonLib} `{Interpreter}.

Lemma runner_step_tasks id σ r :
  ∃ f, keeps_identity f ∧ tasks (runner_step id σ r).1 = alter f id (tasks σ).
Proof.
  assert (Hid : ∃ f, keeps_identity f ∧ tasks σ = alter f id (tasks σ)).
  { exists (λ t, t). split; [done|]. symmetry. by apply alter_id. }
  destruct r as [[|i rest] | [|i rest] | | e | b]; cbn; try exact Hid.
  - destruct (exec id i σ) as [σ'|e|b|] eqn:E; cbn; try exact Hid.
    apply exec_tasks in E as [-> _]. eauto using task_effect_keeps_identity.
  - destruct (exec id i σ) as [σ'|e|b|] eqn:E; cbn; try exact Hid.
    apply exec_tasks in E as [-> _]. eauto using task_effect_keeps_identity.
Qed.

Lemma except_block_shape e :
  ∃ pre m, except_block e = pre ++ failure_tail m ∧ Forall logging pre ∧ m ≠ EmptyString
           ∧ m = "Agent execution failed: " +:+ exn_str e.
Proof.
  exists [LogTask ("❌ 錯誤: " +:+ ("Agent execution failed: " +:+ exn_str e));
          LogTask ("Traceback: " +:+ format_exc e)],
         ("Agent execution failed: " +:+ exn_str e).
  split; [reflexivity|]. split; [|split; [discriminate|reflexivity]].
  repeat constructor.
Qed.

Lemma try_block_shape p v c :
  ∃ mid, try_block p v c
         = NewLog :: SetStatus TaskStatus.RUNNING :: SetStartedAt :: mid ++ success_tail
       ∧ Forall neutral mid.
Proof.
  exists ([ LogTask "🚀 開始執行 Agent"; LogTask "🔧 初始化 LLM...";
            Call (provider_ctor c); Call (get_model c);
            LogTask "✅ LLM 初始化完成"; LogTask "🤖 建立 RefactorAgent...";
            Call (agent_ctor c); LogTask "✅ RefactorAgent 建立完成";
            LogTask ("▶️  執行 Agent，init_prompt: " +:+ PyStr.slice 0 100 p +:+ "...") ]
          ++ (handle_chunk_event <$> run_events c) ++ [Call (run_outcome c)]).
  split.
  - unfold try_block, success_tail. cbn. by rewrite <- !app_assoc.
  - apply Forall_app. split; [repeat constructor|].
    apply Forall_app. split; [|repeat constructor].
    apply Forall_fmap, Forall_true. intros ?. exact I.
Qed.

Lemma start_consistent p v c t :
  unfinished TaskStatus.PENDING t → consistent (start_runner p v c) t.
Proof.
  intros Ht. unfold start_runner.
  destruct (try_block_shape p v c) as (mid & -> & Hmid). by constructor.
Qed.

(** One step of the runner of a known task keeps its task consistent. *)
Lemma runner_step_consistent id σ r t :
  tasks σ !! id = Some t → consistent r t →
  ∃ t', tasks (runner_step id σ r).1 !! id = Some t'
        ∧ consistent (runner_step id σ r).2 t'.
Proof.
  intros Ht Hc.
  assert (Hneutral : ∀ i σ', neutral i → exec id i σ = Ok σ' → tasks σ' !! id = Some t).
  { intros i σ' Hi E. apply exec_tasks in E as [-> _].
    rewrite lookup_alter, decide_True by done. rewrite Ht. cbn.
    by rewrite neutral_effect. }
  assert (Hset : ∀ f, ∃ σ', set_field id f σ = Ok σ' ∧ tasks σ' !! id = Some (f t)).
  { intros f. eexists. split; [by apply set_field_ok|]. cbn. apply lookup_insert_eq. }
  inversion Hc as
    [ mid t0 Hmid Hu | mid t0 Hmid Hu | mid t0 Hmid Hu | mid t0 Hmid Hu
    | msg t0 Hu | rest t0 Hrest Hs Hf He
    | pre m t0 Hpre Hm Hu | m t0 Hm Hu | m t0 Hm Hs Hf He | m t0 Hm Hs Hf He
    | t0 Hs Hf He | m t0 Hm Hs Hf He | b t0 Hu ]; subst; cbn [runner_step exec].
  - (* task_logs[task_id] = [] *)
    exists t. split; [done|]. by constructor.
  - (* status = RUNNING *)
    destruct (Hset (with_status TaskStatus.RUNNING)) as (σ' & -> & Hσ').
    eexists. split; [done|]. constructor; [done|].
    destruct Hu as (_ & ? & ?). by repeat split.
  - (* started_at *)
    destruct (Hset (with_started_at (now σ))) as (σ' & -> & Hσ').
    eexists. split; [done|]. constructor; [done|].
    destruct Hu as (? & ? & ?). by repeat split.
  - (* inside the body, up to the SUCCESS write *)
    destruct mid as [|i mid]; cbn [app success_tail runner_step exec].
    + destruct (Hset (with_status TaskStatus.SUCCESS)) as (σ' & -> & Hσ').
      eexists. split; [done|]. constructor.
      destruct Hu as (_ & ? & ?). by repeat split.
    + pose proof Hmid as Hall. apply Forall_cons in Hmid as [Hi Hmid].
      destruct (exec id i σ) as [σ'|e|b|] eqn:E; cbn [fst snd].
      * exists t. split; [by apply (Hneutral i)|]. by constructor.
      * exists t. split; [done|].
        destruct (except_block_shape e) as (pre & m & -> & Hpre & Hm & _).
        by constructor.
      * exists t. split; [done|]. by constructor.
      * exists t. split; [done|]. by apply (in_body (i :: mid)).
  - (* finished_at after SUCCESS *)
    destruct (Hset (with_finished_at (now σ))) as (σ' & -> & Hσ').
    eexists. split; [done|]. destruct Hu as (? & ? & ?).
    apply after_success; cbn; [repeat constructor|done|by eexists|done].
  - (* after the SUCCESS writes *)
    destruct rest as [|i rest]; cbn.
    + exists t. split; [done|]. by constructor.
    + apply Forall_cons in Hrest as [Hi Hrest].
      destruct i; try done. cbn.
      exists t. split; [by rewrite tasks_log_task|]. by apply after_success.
  - (* the handler, up to the FAILED write *)
    destruct pre as [|i pre]; cbn [app failure_tail runner_step exec].
    + destruct (Hset (with_status TaskStatus.FAILED)) as (σ' & -> & Hσ').
      eexists. split; [done|]. constructor; [done|].
      destruct Hu as (_ & ? & ?). by repeat split.
    + apply Forall_cons in Hpre as [Hi Hpre].
      destruct i; try done. cbn.
      exists t. split; [by rewrite tasks_log_task|]. by constructor.
  - (* error_message *)
    destruct (Hset (with_error_message m)) as (σ' & -> & Hσ').
    eexists. split; [done|]. destruct Hu as (? & ? & ?).
    by apply (at_failure_finish m).
  - (* finished_at after FAILED *)
    destruct (Hset (with_finished_at (now σ))) as (σ' & -> & Hσ').
    eexists. split; [done|].
    apply (after_failure m); cbn; [done|done|by eexists|done].
  - exists t. split; [done|]. by apply (returned_failure m).
  - exists t. split; [done|]. by apply returned_success.
  - exists t. split; [done|]. by apply (returned_failure m).
  - exists t. split; [done|]. by constructor.
Qed.

End Consistency.

Lemma consistent_finished r t :
  consistent r t → is_Some (finished_at t) → terminal t.
Proof.
  unfold terminal.
  destruct 1; unfold unfinished in *; intros [ts Hts]; intuition congruence.
Qed.

Lemma consistent_error r t :
  consistent r t → is_Some (error_message t) →
  status t = TaskStatus.FAILED ∧ ∃ m, error_message t = Some m ∧ m ≠ EmptyString.
Proof.
  destruct 1; unfold unfinished in *; intros [ts Hts];
    try (intuition congruence); eauto.
Qed.

Lemma consistent_returned t :
  consistent Returned t →
  (terminal t ↔ is_Some (finished_at t))
  ∧ (status t = TaskStatus.FAILED → ∃ m, error_message t = Some m ∧ m ≠ EmptyString)
  ∧ (status t = TaskStatus.SUCCESS → error_message t = None).
Proof.
  unfold terminal.
  inversion 1 as [ | | | | | | | | | | t0 Hs Hf He | m t0 Hm Hs Hf He | ]; subst.
  - repeat split; try tauto. rewrite Hs. discriminate.
  - repeat split; try tauto; [eauto|]. rewrite Hs. discriminate.
Qed.

Lemma consistent_status r t :
  consistent r t →
  status t ∈ [TaskStatus.PENDING; TaskStatus.RUNNING; TaskStatus.SUCCESS; TaskStatus.FAILED].
Proof.
  destruct 1; unfold unfinished in *;
    repeat match goal with H : _ ∧ _ |- _ => destruct H end;
    match goal with H : status _ = _ |- _ => rewrite H end; set_solver.
Qed.

Section Invariant.
Context `{JsonLib} `{Interpreter}.

Lemma act_follows a s : tasks_follow_runners s → tasks_follow_runners (act a s).
Proof.
  intros Inv. destruct a as [id request c | id | conn id | conn | ts]; cbn.
  - (* POST /run *)
    destruct (tasks (store s) !! id) eqn:E; [done|].
    intros id' t. cbn. destruct (decide (id = id')) as [<-|Hne].
    + rewrite !lookup_insert_eq. intros [= <-]. eexists. split; [done|].
      by apply start_consistent.
    + rewrite !lookup_insert_ne by done. apply Inv.
  - (* a statement of a runner *)
    destruct (runners s !! id) as [r|] eqn:Er; [|done].
    destruct (runner_step id (store s) r) as [σ' r'] eqn:Es.
    intros id' t'. cbn.
    destruct (runner_step_tasks id (store s) r) as (f & _ & Hf).
    rewrite Es in Hf. cbn in Hf.
    destruct (decide (id = id')) as [<-|Hne].
    + rewrite lookup_insert_eq, Hf, lookup_alter, decide_True by done.
      destruct (tasks (store s) !! id) as [t|] eqn:Et; [|done].
      cbn. intros [= <-]. destruct (Inv id t Et) as (r0 & Hr0 & Hc).
      rewrite Er in Hr0. injection Hr0 as <-.
      destruct (runner_step_consistent id (store s) r t Et Hc) as (t'' & Ht'' & Hc').
      rewrite Es in Ht'', Hc'. cbn in Ht'', Hc'.
      rewrite Hf, lookup_alter, decide_True, Et in Ht'' by done.
      cbn in Ht''. injection Ht'' as <-. eexists. split; done.
    + rewrite lookup_insert_ne, Hf, lookup_alter_ne by done. apply Inv.
  - (* GET /tasks/{id}/stream *)
    unfold stream_task_logs. by destruct (tasks (store s) !! id).
  - (* the consumer asks a generator for its next event *)
    destruct (streams s !! conn) as [st|]; [|done].
    by destruct (relay_step _ _ _).
  - exact Inv.
Qed.

Lemma run_follows acts s : tasks_follow_runners s → tasks_follow_runners (run acts s).
Proof.
  revert s. induction acts as [|a acts IH]; intros s Inv; [done|].
  cbn. apply IH. by apply act_follows.
Qed.

Lemma initial_follows : tasks_follow_runners initial.
Proof. intros id t. cbn. by rewrite lookup_empty. Qed.

Lemma reachable_follows acts : tasks_follow_runners (run acts initial).
Proof. apply run_follows, initial_follows. Qed.

End Invariant.

(** ** A terminal status is never rewritten *)

Lemma status_values_differ :
  TaskStatus.PENDING ≠ TaskStatus.SUCCESS ∧ TaskStatus.PENDING ≠ TaskStatus.FAILED
  ∧ TaskStatus.RUNNING ≠ TaskStatus.SUCCESS ∧ TaskStatus.RUNNING ≠ TaskStatus.FAILED.
Proof. repeat split; discriminate. Qed.

Section Final.
Context `{JsonLib} `{Interpreter}.

(** Once the status is SUCCESS or FAILED, no statement of the runner changes
    it. *)
Lemma runner_step_terminal id σ r t :
  tasks σ !! id = Some t → consistent r t → terminal t →
  ∃ t', tasks (runner_step id σ r).1 !! id = Some t' ∧ status t' = status t.
Proof.
  intros Ht Hc Hterm.
  destruct status_values_differ as (Hps & Hpf & Hrs & Hrf).
  assert (Hset : ∀ f, ∃ σ', set_field id f σ = Ok σ' ∧ tasks σ' !! id = Some (f t)).
  { intros f. eexists. split; [by apply set_field_ok|]. cbn. apply lookup_insert_eq. }
  assert (Hnot : ∀ s, unfinished s t → s ≠ TaskStatus.SUCCESS → s ≠ TaskStatus.FAILED → False).
  { intros s (Hs & _) ? ?. destruct Hterm; congruence. }
  inversion Hc as
    [ mid t0 Hmid Hu | mid t0 Hmid Hu | mid t0 Hmid Hu | mid t0 Hmid Hu
    | msg t0 Hu | rest t0 Hrest Hs Hf He
    | pre m t0 Hpre Hm Hu | m t0 Hm Hu | m t0 Hm Hs Hf He | m t0 Hm Hs Hf He
    | t0 Hs Hf He | m t0 Hm Hs Hf He | b t0 Hu ]; subst;
    try (by destruct (Hnot _ Hu)); cbn [runner_step exec].
  - destruct (Hset (with_finished_at (now σ))) as (σ' & -> & Hσ'). by eexists.
  - destruct rest as [|i rest]; [by eexists|].
    apply Forall_cons in Hrest as [Hi _]. destruct i; try done.
    cbn. rewrite tasks_log_task. by eexists.
  - destruct (Hset (with_error_message m)) as (σ' & -> & Hσ'). by eexists.
  - destruct (Hset (with_finished_at (now σ))) as (σ' & -> & Hσ'). by eexists.
  - by eexists.
  - by eexists.
  - by eexists.
Qed.

Lemma act_terminal a s id t :
  tasks_follow_runners s →
  tasks (store s) !! id = Some t → terminal t →
  ∃ t', tasks (store (act a s)) !! id = Some t' ∧ status t' = status t.
Proof.
  intros Inv Ht Hterm.
  assert (Hsame : ∃ t', tasks (store s) !! id = Some t' ∧ status t' = status t)
    by by eexists.
  destruct a as [id0 request c | id0 | conn id0 | conn | ts]; cbn.
  - destruct (tasks (store s) !! id0) eqn:E; [done|]. cbn.
    rewrite lookup_insert_ne; [done|]. intros ->. congruence.
  - destruct (runners s !! id0) as [r|] eqn:Er; [|done].
    destruct (decide (id0 = id)) as [->|Hne].
    + destruct (Inv id t Ht) as (r0 & Hr0 & Hc).
      rewrite Er in Hr0. injection Hr0 as <-.
      destruct (runner_step_terminal id (store s) r t Ht Hc Hterm) as (t' & Ht' & Hs).
      destruct (runner_step id (store s) r) as [σ' r']. by exists t'.
    + destruct (runner_step_tasks id0 (store s) r) as (f & _ & Hf).
      destruct (runner_step id0 (store s) r) as [σ' r']. cbn in *.
      rewrite Hf, lookup_alter_ne by done. done.
  - unfold stream_task_logs. by destruct (tasks (store s) !! id0).
  - destruct (streams s !! conn) as [st|]; [|done]. by destruct (relay_step _ _ _).
  - done.
Qed.

(** In the running server a task that is SUCCESS or FAILED keeps that
    status whatever happens next. *)
Lemma terminal_status_is_final acts more id t :
  tasks (store (run acts initial)) !! id = Some t → terminal t →
  ∃ t', tasks (store (run (acts ++ more) initial)) !! id = Some t'
        ∧ status t' = status t.
Proof.
  unfold run. rewrite foldl_app. fold (run acts initial).
  pose proof (reachable_follows acts) as Inv.
  generalize dependent (run acts initial). intros s Inv. revert s Inv t.
  induction more as [|a more IH]; intros s Inv t Ht Hterm; [by eexists|].
  cbn [foldl].
  destruct (act_terminal a s id t Inv Ht Hterm) as (t1 & Ht1 & Hs1).
  destruct (IH (act a s) (act_follows a s Inv) t1 Ht1) as (t' & Ht' & Hs').
  { unfold terminal in *. by rewrite Hs1. }
  exists t'. split; [done|]. congruence.
Qed.

End Final.

(** ** C1: status writes and their accompanying fields *)

Section StatusFields.
Context `{JsonLib} `{Interpreter}.

(** C1, as the code has it.  A transition is a sequence of separate writes,
    the status first.  In every reachable state and for every task:
    [finished_at] is set only if the status is SUCCESS or FAILED;
    [error_message] is set only if the status is FAILED, and is then
    non-empty; and once the runner of the task has returned, [finished_at]
    is set exactly if the status is SUCCESS or FAILED, with a non-empty
    [error_message] beside FAILED. *)
Theorem fields_follow_status (acts : list Action) (id : string) (t : Task) :
  tasks (store (run acts initial)) !! id = Some t →
  (is_Some (finished_at t) → terminal t)
  ∧ (is_Some (error_message t) →
       status t = TaskStatus.FAILED ∧ ∃ m, error_message t = Some m ∧ m ≠ EmptyString)
  ∧ (runners (run acts initial) !! id = Some Returned →
       (terminal t ↔ is_Some (finished_at t))
       ∧ (status t = TaskStatus.FAILED →
            ∃ m, error_message t = Some m ∧ m ≠ EmptyString)).
Proof.
  intros Ht. destruct (reachable_follows acts id t Ht) as (r & Hr & Hc).
  split; [by apply (consistent_finished r)|].
  split; [by apply (consistent_error r)|].
  rewrite Hr. intros [= ->]. apply consistent_returned in Hc. tauto.
Qed.

End StatusFields.

Lemma fields_follow_status_witness :
  tasks (store (run (Scenario.started Scenario.failing 30) initial)) !! "t1"
  = Some Scenario.failed_task
  ∧ (is_Some (finished_at Scenario.failed_task) → terminal Scenario.failed_task)
  ∧ (is_Some (error_message Scenario.failed_task) →
       status Scenario.failed_task = TaskStatus.FAILED
       ∧ ∃ m, error_message Scenario.failed_task = Some m ∧ m ≠ EmptyString)
  ∧ (runners (run (Scenario.started Scenario.failing 30) initial) !! "t1" = Some Returned →
       (terminal Scenario.failed_task ↔ is_Some (finished_at Scenario.failed_task))
       ∧ (status Scenario.failed_task = TaskStatus.FAILED →
            ∃ m, error_message Scenario.failed_task = Some m ∧ m ≠ EmptyString)).
Proof.
  assert (Ht : tasks (store (run (Scenario.started Scenario.failing 30) initial)) !! "t1"
               = Some Scenario.failed_task) by (vm_compute; reflexivity).
  exact (conj Ht (fields_follow_status _ "t1" _ Ht)).
Defined.

(** C1, as the specification words it, fails: between the write of the
    status and the write of [finished_at] the task is SUCCESS with
    [finished_at] unset. *)
Lemma terminal_status_before_finished_at :
  ¬ (∀ (acts : list Action) (id : string) (t : Task),
       tasks (store (run acts initial)) !! id = Some t →
       (is_Some (finished_at t) ↔ terminal t)).
Proof.
  intros Hall.
  destruct (tasks (store (run (Scenario.started Scenario.echo 15) initial)) !! "t1")
    as [t|] eqn:Et; [|vm_compute in Et; discriminate].
  pose proof (Hall _ _ _ Et) as [_ Hfin].
  vm_compute in Et. injection Et as <-.
  destruct Hfin as [ts Hts]; [by left|discriminate].
Qed.

(** ** C9: the status strings *)

Section StatusStrings.
Context `{JsonLib} `{Interpreter}.

(** C9.  In every reachable state the status of every task is one of the
    four lower-case strings [pending], [running], [success], [failed];
    lower-casing it changes nothing, so the [status] field of the final
    event is the stored status, and so is the one of the status query. *)
Theorem status_is_lowercase (acts : list Action) (id : string) (t : Task) :
  tasks (store (run acts initial)) !! id = Some t →
  status t ∈ ["pending"; "running"; "success"; "failed"]
  ∧ PyStr.lower (status t) = status t
  ∧ status_event t
    = {| event := "status";
         data := dumps (JObj [("status", JStr (status t));
                              ("finished_at", json_opt (finished_at t));
                              ("error_message", json_opt (error_message t))]) |}
  ∧ ∃ resp, get_task_status id (store (run acts initial)) = Response resp
            ∧ TaskStatusResponse.status resp = status t.
Proof.
  intros Ht. destruct (reachable_follows acts id t Ht) as (r & _ & Hc).
  pose proof (consistent_status r t Hc) as Hs.
  assert (Hlow : PyStr.lower (status t) = status t).
  { repeat (apply elem_of_cons in Hs as [-> | Hs]; [reflexivity|]).
    by apply elem_of_nil in Hs. }
  split; [exact Hs|]. split; [exact Hlow|]. split.
  - unfold status_event. by rewrite Hlow.
  - unfold get_task_status. rewrite Ht. eexists. split; reflexivity.
Qed.

End StatusStrings.

Lemma status_is_lowercase_witness :
  tasks (store (run (Scenario.started Scenario.failing 30) initial)) !! "t1"
  = Some Scenario.failed_task
  ∧ PyStr.lower (status Scenario.failed_task) = "failed".
Proof.
  assert (Ht : tasks (store (run (Scenario.started Scenario.failing 30) initial)) !! "t1"
               = Some Scenario.failed_task) by (vm_compute; reflexivity).
  split; [exact Ht|].
  exact (proj1 (proj2 (status_is_lowercase _ "t1" _ Ht))).
Defined.

(** ** The relay *)

Section RelayFacts.
Context `{JsonLib}.

(** A record whose message has no closing bracket, or whose payload the
    decoder rejects, is framed as a plain log event. *)
Lemma frame_undecodable log :
  (∀ close_bracket,
     PyStr.index "]" (message log) = Some close_bracket →
     loads (PyStr.slice_from (close_bracket + 2) (message log)) = Rejected) →
  frame log = Yields (log_event log).
Proof.
  intros Hbad. unfold frame.
  destruct (PyStr.startswith "[" (message log) && PyStr.contains "]" (message log));
    [|reflexivity].
  destruct (PyStr.index "]" (message log)) as [close_bracket|] eqn:Ei; [|reflexivity].
  by rewrite (Hbad _ eq_refl).
Qed.

(** A record whose message does not open with a bracket is a plain log
    event. *)
Lemma frame_plain log :
  PyStr.startswith "[" (message log) = false → frame log = Yields (log_event log).
Proof. intros Hp. unfold frame. by rewrite Hp. Qed.

Lemma frames_plain logs :
  Forall (λ log, PyStr.startswith "[" (message log) = false) logs →
  frames logs = (log_event <$> logs, None).
Proof.
  induction 1 as [|log logs Hlog Hlogs IH]; [reflexivity|].
  cbn [frames]. by rewrite (frame_plain log Hlog), IH.
Qed.

Lemma frames_app logs1 logs2 :
  frames (logs1 ++ logs2)
  = match frames logs1 with
    | (evs1, None) => let '(evs2, e) := frames logs2 in (evs1 ++ evs2, e)
    | (evs1, Some e) => (evs1, Some e)
    end.
Proof.
  induction logs1 as [|log logs1 IH]; cbn [app frames].
  - by destruct (frames logs2).
  - destruct (frame log) as [ev|e]; [|reflexivity].
    rewrite IH. destruct (frames logs1) as [evs1 [e|]]; [reflexivity|].
    by destruct (frames logs2).
Qed.

Lemma frames_length logs evs : frames logs = (evs, None) → length evs = length logs.
Proof.
  revert evs. induction logs as [|log logs IH]; intros evs; cbn [frames].
  - by intros [= <-].
  - destruct (frame log) as [ev|e]; [|discriminate].
    destruct (frames logs) as [evs' e']. intros [= <- ->]. cbn. by rewrite (IH evs').
Qed.

Lemma relay_run_closed id env n : relay_run id env n Closed = (Closed, []).
Proof.
  revert env. induction n as [|n IH]; intros env; [reflexivity|].
  cbn. by rewrite IH.
Qed.

Lemma relay_run_aborted id env n e : relay_run id env n (Aborted e) = (Aborted e, []).
Proof.
  revert env. induction n as [|n IH]; intros env; [reflexivity|].
  cbn. by rewrite IH.
Qed.

(** The [for] loop yields an event for every record of its slice, in the
    order of the slice, whatever the store does meanwhile, up to the first
    record at which the body raises. *)
Lemma relay_run_for_loop id new env n last_index current_logs :
  relay_run id env (length new + n) (ForLoop last_index current_logs new)
  = match frames new with
    | (evs, None) =>
        let '(r, es) := relay_run id (λ k, env (length new + k)) n
                          (ForLoop last_index current_logs []) in
        (r, evs ++ es)
    | (evs, Some e) => (Aborted e, evs)
    end.
Proof.
  revert env. induction new as [|log new IH]; intros env.
  - cbn [length Nat.add frames app].
    by destruct (relay_run _ _ _ _).
  - cbn [length Nat.add relay_run relay_step frames].
    destruct (frame log) as [ev|e].
    + rewrite (IH (λ k, env (S k))).
      destruct (frames new) as [evs [e|]]; [reflexivity|].
      by destruct (relay_run _ _ _ _).
    + by rewrite relay_run_aborted.
Qed.

(** The status event of a task that is SUCCESS or FAILED, field by field. *)
Lemma status_event_terminal t :
  is_terminal (status t) = true →
  status_event t
  = {| event := "status";
       data := dumps (JObj [("status", JStr (status t));
                            ("finished_at", json_opt (finished_at t));
                            ("error_message", json_opt (error_message t))]) |}.
Proof.
  unfold is_terminal, status_event. intros Hs.
  apply orb_true_iff in Hs as [Hs|Hs]; apply String.eqb_eq in Hs; by rewrite Hs.
Qed.

(** A stream opened on a store that no longer changes, the task being
    terminal: the events of the whole log, then the [status] event. *)
Lemma relay_run_settled id σ t n evs :
  tasks σ !! id = Some t → is_terminal (status t) = true →
  frames (default [] (logs_of σ id)) = (evs, None) →
  3 + length (default [] (logs_of σ id)) ≤ n →
  relay_run id (λ _, σ) n (LoopHead 0) = (Closed, evs ++ [status_event t]).
Proof.
  intros Ht Hs. unfold logs_of.
  destruct (task_logs σ !! id) as [current_logs|] eqn:El;
    cbn [fmap option_fmap option_map default from_option Datatypes.id]; intros Hevs Hn.
  - replace n with (S (length (deref σ current_logs)
                       + (2 + (n - 3 - length (deref σ current_logs))))) by lia.
    cbn [relay_run relay_step]. rewrite Ht, El, drop_0, relay_run_for_loop, Hevs.
    cbn [Nat.add relay_run relay_step]. rewrite Ht, Hs, relay_run_closed.
    reflexivity.
  - cbn [frames] in Hevs. injection Hevs as <-.
    replace n with (S (S (n - 2))) by (cbn in Hn; lia).
    cbn [relay_run relay_step]. rewrite Ht, El.
    cbn [relay_run relay_step]. rewrite Ht, Hs, relay_run_closed.
    reflexivity.
Qed.

(** ** C3: the end of a stream *)

(** From the reading of the status on. *)
Lemma status_check_closes id env last_index :
  (∀ k, ∃ t, tasks (env k) !! id = Some t ∧ is_terminal (status t) = true) →
  ∃ k t, tasks (env k) !! id = Some t
         ∧ ∀ n, 1 ≤ n →
             relay_run id env n (StatusCheck last_index) = (Closed, [status_event t]).
Proof.
  intros Hterm. destruct (Hterm 0) as (t & Ht & Hs). exists 0, t. split; [exact Ht|].
  intros [|n] Hn; [lia|].
  cbn [relay_run relay_step]. by rewrite Ht, Hs, relay_run_closed.
Qed.

(** From inside the [for] loop on. *)
Lemma for_loop_closes id env last_index current_logs new evs :
  (∀ k, ∃ t, tasks (env k) !! id = Some t ∧ is_terminal (status t) = true) →
  frames new = (evs, None) →
  ∃ k t, tasks (env k) !! id = Some t
         ∧ ∀ n, length new + 2 ≤ n →
             relay_run id env n (ForLoop last_index current_logs new)
             = (Closed, evs ++ [status_event t]).
Proof.
  intros Hterm Hevs.
  destruct (status_check_closes id (λ k, env (length new + S k))
              (length (deref (env (length new + 0)) current_logs)))
    as (k & t & Ht & Hrun); [intros k; apply Hterm|].
  exists (length new + S k), t. split; [exact Ht|].
  intros n Hn. replace n with (length new + S (n - length new - 1)) by lia.
  rewrite relay_run_for_loop, Hevs. cbn [relay_run relay_step].
  rewrite Hrun by lia. reflexivity.
Qed.

(** From the head of the loop on. *)
Lemma loop_head_closes id env last_index evs :
  (∀ k, ∃ t, tasks (env k) !! id = Some t ∧ is_terminal (status t) = true) →
  frames (drop last_index (default [] (logs_of (env 0) id))) = (evs, None) →
  ∃ k t, tasks (env k) !! id = Some t
         ∧ ∀ n, length evs + 3 ≤ n →
             relay_run id env n (LoopHead last_index) = (Closed, evs ++ [status_event t]).
Proof.
  intros Hterm. unfold logs_of. destruct (Hterm 0) as (t0 & Ht0 & _).
  destruct (task_logs (env 0) !! id) as [current_logs|] eqn:El;
    cbn [fmap option_fmap option_map default from_option Datatypes.id]; intros Hevs.
  - (* the slice is iterated over, then the status is read *)
    destruct (for_loop_closes id (λ k, env (S k)) last_index current_logs
                (drop last_index (deref (env 0) current_logs)) evs)
      as (k & t & Ht & Hrun); [intros k; apply Hterm|exact Hevs|].
    exists (S k), t. split; [exact Ht|].
    intros [|n] Hn; [lia|]. cbn [relay_run relay_step]. rewrite Ht0, El.
    rewrite Hrun; [reflexivity|]. rewrite <- (frames_length _ _ Hevs). lia.
  - (* no list is bound to the id: the status is read at once *)
    rewrite drop_nil in Hevs. cbn [frames] in Hevs. injection Hevs as <-.
    destruct (status_check_closes id (λ k, env (S k)) last_index)
      as (k & t & Ht & Hrun); [intros k; apply Hterm|].
    exists (S k), t. split; [exact Ht|].
    intros [|n] Hn; [cbn in Hn; lia|]. cbn [relay_run relay_step]. rewrite Ht0, El.
    rewrite Hrun; [reflexivity|]. cbn in Hn. lia.
Qed.

(** C3, as the code has it.  Take a generator that has not come to its end,
    wherever it is in its loop, and let the store do anything as long as the
    task is known and its status stays SUCCESS or FAILED.  If no record it
    still has to send makes the decoder raise an exception other than
    [ValueError], the generator yields the events of these records, in
    order, then one event built from the task dict -- named [status] and
    carrying its [status], [finished_at] and [error_message] -- and is
    closed: nothing follows.  With no record left to send, this event is
    all it yields.  (The events of the records are the typed events of the
    callbacks, whatever their names, and [log] events.) *)
Theorem stream_ends_with_status (id : string) (env : nat → Store) (r : Relay)
    (evs : list Event) :
  finished r = false →
  (∀ k, ∃ t, tasks (env k) !! id = Some t ∧ is_terminal (status t) = true) →
  frames (to_send id (env (reads_log_at r)) r) = (evs, None) →
  ∃ k t,
    tasks (env k) !! id = Some t
    ∧ ∀ n, length evs + 4 ≤ n →
        relay_run id env n r
        = (Closed,
           evs ++ [ {| event := "status";
                       data := dumps (JObj [("status", JStr (status t));
                                            ("finished_at", json_opt (finished_at t));
                                            ("error_message",
                                             json_opt (error_message t))]) |} ]).
Proof.
  intros Hopen Hterm Hevs.
  assert (Hshape : ∃ k t, tasks (env k) !! id = Some t
            ∧ ∀ n, length evs + 4 ≤ n →
                relay_run id env n r = (Closed, evs ++ [status_event t])).
  { destruct r as [li | li cl new | li | li | | e]; try discriminate;
      cbn [to_send reads_log_at] in Hevs.
    - destruct (loop_head_closes id env li evs Hterm Hevs) as (k & t & Ht & Hrun).
      exists k, t. split; [exact Ht|]. intros n Hn. apply Hrun. lia.
    - destruct (for_loop_closes id env li cl new evs Hterm Hevs) as (k & t & Ht & Hrun).
      exists k, t. split; [exact Ht|]. intros n Hn. apply Hrun.
      rewrite <- (frames_length _ _ Hevs). lia.
    - cbn [frames] in Hevs. injection Hevs as <-.
      destruct (status_check_closes id env li Hterm) as (k & t & Ht & Hrun).
      exists k, t. split; [exact Ht|]. intros n Hn. apply Hrun. lia.
    - destruct (loop_head_closes id (λ k, env (S k)) li evs) as (k & t & Ht & Hrun);
        [intros k; apply Hterm|exact Hevs|].
      exists (S k), t. split; [exact Ht|].
      intros [|n] Hn; [lia|]. cbn [relay_run relay_step].
      rewrite Hrun by lia. reflexivity. }
  destruct Hshape as (k & t & Ht & Hrun). exists k, t. split; [exact Ht|].
  intros n Hn. rewrite (Hrun n Hn). destruct (Hterm k) as (t' & Ht' & Hs).
  rewrite Ht in Ht'. injection Ht' as <-. by rewrite status_event_terminal.
Qed.

End RelayFacts.

Lemma stream_ends_with_status_witness :
  finished (LoopHead 0) = false
  ∧ (∀ k, ∃ t, tasks (Scenario.succeeded k) !! "t1" = Some t
               ∧ is_terminal (status t) = true)
  ∧ frames (to_send "t1" (Scenario.succeeded (reads_log_at (LoopHead 0))) (LoopHead 0))
    = ((frames (to_send "t1" (Scenario.succeeded (reads_log_at (LoopHead 0)))
                  (LoopHead 0))).1, None)
  ∧ ∃ k t,
      tasks (Scenario.succeeded k) !! "t1" = Some t
      ∧ ∀ n, length (frames (to_send "t1" (Scenario.succeeded (reads_log_at (LoopHead 0)))
                               (LoopHead 0))).1 + 4 ≤ n →
          relay_run "t1" Scenario.succeeded n (LoopHead 0)
          = (Closed,
             (frames (to_send "t1" (Scenario.succeeded (reads_log_at (LoopHead 0)))
                        (LoopHead 0))).1
             ++ [ {| event := "status";
                     data := dumps (JObj [("status", JStr (status t));
                                          ("finished_at", json_opt (finished_at t));
                                          ("error_message",
                                           json_opt (error_message t))]) |} ]).
Proof.
  assert (Hopen : finished (LoopHead 0) = false) by reflexivity.
  assert (Hterm : ∀ k, ∃ t, tasks (Scenario.succeeded k) !! "t1" = Some t
                            ∧ is_terminal (status t) = true).
  { intros k. exists Scenario.succeeded_task. split; vm_compute; reflexivity. }
  assert (Hevs : frames (to_send "t1" (Scenario.succeeded (reads_log_at (LoopHead 0)))
                           (LoopHead 0))
                 = ((frames (to_send "t1" (Scenario.succeeded (reads_log_at (LoopHead 0)))
                               (LoopHead 0))).1, None))
    by (vm_compute; reflexivity).
  exact (conj Hopen (conj Hterm (conj Hevs
           (stream_ends_with_status "t1" Scenario.succeeded (LoopHead 0) _
              Hopen Hterm Hevs)))).
Defined.

(** C3, as the specification words it, fails in two ways.  In scenario C
    the log of a finished task holds a record whose payload is nested deeper
    than the decoder follows: the generator of a stream opened afterwards
    is left by [RecursionError] at that record, and no [status] event is
    ever sent.  In scenario D a callback has the event type [status]: the
    stream carries two events of that name. *)
Lemma status_event_missing_or_repeated :
  (status <$> tasks (store (run Scenario.deep_stream initial)) !! "t1"
   = Some TaskStatus.SUCCESS
   ∧ stream_relay <$> streams (run Scenario.deep_stream initial) !! 0
     = Some (Aborted RefJson.RecursionError)
   ∧ (λ st, event <$> stream_events st) <$> streams (run Scenario.deep_stream initial) !! 0
     = Some ["log"; "log"; "log"; "log"; "log"; "log"])
  ∧ (stream_relay <$> streams (run Scenario.status_stream initial) !! 0 = Some Closed
     ∧ (λ st, event <$> stream_events st)
         <$> streams (run Scenario.status_stream initial) !! 0
       = Some ["log"; "log"; "log"; "log"; "log"; "log"; "status"; "log"; "status"]).
Proof.
  split; (split; [vm_compute; reflexivity|]); [split|]; vm_compute; reflexivity.
Qed.

(** ** C6: records that look structured but do not decode *)

Section Undecodable.
Context `{JsonLib}.

(** C6, as the code has it.  A record whose message starts with [[] but has
    no closing bracket, or whose text after the bracket and the following
    character the decoder rejects with [JSONDecodeError], is yielded as a
    [log] event carrying its timestamp and message; and the loop goes on:
    after the events of the records before it and this one, the generator
    does with the records after it what it does with them alone. *)
Theorem undecodable_record_is_logged (id : string) (env : nat → Store)
    (last_index : nat) (current_logs : loc) (before after : list LogRecord)
    (log : LogRecord) (evs : list Event) (n : nat) :
  PyStr.startswith "[" (message log) = true →
  (∀ close_bracket,
     PyStr.index "]" (message log) = Some close_bracket →
     loads (PyStr.slice_from (close_bracket + 2) (message log)) = Rejected) →
  frames before = (evs, None) →
  frame log
  = Yields {| event := "log";
              data := dumps (JObj [("timestamp", JStr (timestamp log));
                                   ("message", JStr (message log))]) |}
  ∧ relay_run id env (length before + S n)
      (ForLoop last_index current_logs (before ++ log :: after))
    = (let '(r, es) := relay_run id (λ k, env (length before + S k)) n
                         (ForLoop last_index current_logs after) in
       (r, evs
           ++ {| event := "log";
                 data := dumps (JObj [("timestamp", JStr (timestamp log));
                                      ("message", JStr (message log))]) |} :: es)).
Proof.
  intros _ Hbad Hevs. pose proof (frame_undecodable log Hbad) as Hlog.
  split; [exact Hlog|]. revert env evs Hevs.
  induction before as [|log0 before IH]; intros env evs; cbn [frames].
  - intros [= <-]. cbn [length Nat.add app relay_run relay_step]. rewrite Hlog.
    by destruct (relay_run _ _ _ _).
  - destruct (frame log0) as [ev|e] eqn:Ef; [|discriminate].
    destruct (frames before) as [evs' e'] eqn:Eb. intros [= <- ->].
    cbn [length Nat.add app relay_run relay_step]. rewrite Ef.
    rewrite (IH (λ k, env (S k)) evs' eq_refl).
    by destruct (relay_run _ _ _ _).
Qed.

End Undecodable.

Lemma undecodable_record_is_logged_witness :
  PyStr.startswith "[" (message Scenario.not_json) = true
  ∧ (∀ close_bracket,
       PyStr.index "]" (message Scenario.not_json) = Some close_bracket →
       loads (PyStr.slice_from (close_bracket + 2) (message Scenario.not_json)) = Rejected)
  ∧ frames [Scenario.progress] = ([Scenario.progress_event], None)
  ∧ relay_run "t1" Scenario.settled (length [Scenario.progress] + 2)
      (ForLoop 0 0 ([Scenario.progress] ++ Scenario.not_json :: [Scenario.progress]))
    = (let '(r, es) := relay_run "t1" (λ k, Scenario.settled (length [Scenario.progress] + S k))
                         1 (ForLoop 0 0 [Scenario.progress]) in
       (r, [Scenario.progress_event]
           ++ {| event := "log";
                 data := dumps (JObj [("timestamp", JStr (timestamp Scenario.not_json));
                                      ("message", JStr (message Scenario.not_json))]) |}
              :: es)).
Proof.
  assert (Hbad : ∀ close_bracket,
            PyStr.index "]" (message Scenario.not_json) = Some close_bracket →
            loads (PyStr.slice_from (close_bracket + 2) (message Scenario.not_json))
            = Rejected).
  { intros close_bracket Hclose.
    assert (Hat : PyStr.index "]" (message Scenario.not_json) = Some 11)
      by (vm_compute; reflexivity).
    rewrite Hat in Hclose. injection Hclose as <-. vm_compute. reflexivity. }
  assert (Hevs : frames [Scenario.progress] = ([Scenario.progress_event], None))
    by (vm_compute; reflexivity).
  split; [reflexivity|]. split; [exact Hbad|]. split; [exact Hevs|].
  exact (proj2 (undecodable_record_is_logged "t1" Scenario.settled 0 0
                  [Scenario.progress] [Scenario.progress] Scenario.not_json
                  [Scenario.progress_event] 1 eq_refl Hbad Hevs)).
Defined.

(** C6, as the specification words it, fails for a payload at which the
    decoder raises an exception that is no [ValueError]: at the record of
    scenario C, nested deeper than the decoder follows, the body of the
    loop raises [RecursionError] instead of yielding a [log] event, the
    generator is left by it, and the records after it are never sent, however
    long the stream is read.  In the server, the stream of scenario C ends
    after the six records before this one, the seventh of the nine its log
    holds. *)
Lemma deep_record_aborts_stream :
  PyStr.startswith "[" (message Scenario.too_deep) = true
  ∧ frame Scenario.too_deep = Throws RefJson.RecursionError
  ∧ relay_run "t1" Scenario.settled 20
      (ForLoop 0 0 [Scenario.progress; Scenario.too_deep; Scenario.progress])
    = (Aborted RefJson.RecursionError, [Scenario.progress_event])
  ∧ (λ log, log !! 6) <$> logs_of (store (run Scenario.deep_stream initial)) "t1"
    = Some (Some Scenario.too_deep)
  ∧ length <$> logs_of (store (run Scenario.deep_stream initial)) "t1" = Some 9
  ∧ streams (run Scenario.deep_stream initial) !! 0
    = Some {| stream_task := "t1";
              stream_relay := Aborted RefJson.RecursionError;
              stream_events :=
                log_event
                  <$> take 6 (default [] (logs_of (store (run Scenario.deep_stream initial))
                                            "t1")) |}.
Proof.
  split; [reflexivity|]. split; [vm_compute; reflexivity|].
  split; [vm_compute; reflexivity|]. split; [vm_compute; reflexivity|].
  split; vm_compute; reflexivity.
Qed.

(** ** C7: the status query *)

Section StatusQuery.
Context `{JsonLib} `{Interpreter}.

(** What an action does to the task dicts: POST /run adds one under a new
    id, a runner step rewrites fields of its own task, nothing is removed. *)
Lemma act_tasks a s :
  (∃ id request c t,
      a = Submit id request c ∧ tasks (store s) !! id = None
      ∧ tasks (store (act a s)) = <[id := t]> (tasks (store s))
      ∧ task_id t = id)
  ∨ ((∀ id request c, a = Submit id request c → is_Some (tasks (store s) !! id))
     ∧ ∃ id f, keeps_identity f ∧ tasks (store (act a s)) = alter f id (tasks (store s))).
Proof.
  assert (Hsame : ∀ id0 : string, ∃ (id : string) f, keeps_identity f
                    ∧ tasks (store s) = alter f id (tasks (store s))).
  { intros id0. exists id0, (λ t, t). split; [done|]. symmetry. by apply alter_id. }
  destruct a as [id request c | id | conn id | conn | ts]; cbn.
  - destruct (tasks (store s) !! id) as [t|] eqn:E.
    + right. split; [|exact (Hsame id)]. intros ? ? ? [= <- _ _]. by eexists.
    + left. exists id, request, c. eexists. cbn. done.
  - right. split; [discriminate|].
    destruct (runners s !! id) as [r|]; [|exact (Hsame id)].
    destruct (runner_step_tasks id (store s) r) as (f & Hf & Ht).
    destruct (runner_step id (store s) r) as [σ' r']. exists id, f. done.
  - right. split; [discriminate|].
    unfold stream_task_logs. destruct (tasks (store s) !! id); exact (Hsame id).
  - right. split; [discriminate|].
    destruct (streams s !! conn) as [st|]; [|exact (Hsame EmptyString)].
    destruct (relay_step _ _ _). exact (Hsame EmptyString).
  - right. split; [discriminate|]. exact (Hsame EmptyString).
Qed.

(** The known ids are those that were submitted. *)
Lemma run_known acts s id :
  is_Some (tasks (store (run acts s)) !! id)
  ↔ is_Some (tasks (store s) !! id) ∨ ∃ request c, Submit id request c ∈ acts.
Proof.
  revert s. induction acts as [|a acts IH]; intros s.
  - cbn. split; [by left|]. intros [?|(? & ? & Hin)]; [done|]. by apply elem_of_nil in Hin.
  - change (run (a :: acts) s) with (run acts (act a s)). rewrite IH.
    destruct (act_tasks a s)
    as [(id0 & request & c & t0 & -> & Hnew & -> & _) | (Hold & id0 & f & _ & ->)].
    + rewrite lookup_insert. destruct (decide (id0 = id)) as [<-|Hne].
      * split; [|intros _; left; by eexists].
        intros _. right. exists request, c. apply elem_of_cons. by left.
      * split; (intros [?|(request' & c' & Hin)]; [by left|right]);
          exists request', c'; [by apply elem_of_cons; right|].
        apply elem_of_cons in Hin as [[= ? _ _]|Hin]; [congruence|done].
    + assert (Hsome : is_Some (alter f id0 (tasks (store s)) !! id)
                      ↔ is_Some (tasks (store s) !! id)).
      { destruct (decide (id0 = id)) as [->|Hne].
        - by rewrite lookup_alter_eq, fmap_is_Some.
        - by rewrite lookup_alter_ne. }
      rewrite Hsome. split.
      * intros [?|(request & c & Hin)]; [by left|right].
        exists request, c. apply elem_of_cons. by right.
      * intros [?|(request & c & Hin)]; [by left|].
        apply elem_of_cons in Hin as [Heq|Hin]; [left; by eapply Hold|right; eauto].
Qed.

Lemma run_ids_match acts s : ids_match (store s) → ids_match (store (run acts s)).
Proof.
  revert s. induction acts as [|a acts IH]; intros s Hs; [done|].
  change (run (a :: acts) s) with (run acts (act a s)). apply IH.
  intros id t.
  destruct (act_tasks a s)
    as [(id0 & request & c & t0 & -> & Hnew & -> & Hid) | (_ & id0 & f & Hf & ->)].
  - rewrite lookup_insert. destruct (decide (id0 = id)) as [<-|Hne]; [|apply Hs].
    by intros [= <-].
  - rewrite lookup_alter. destruct (decide (id0 = id)) as [<-|Hne]; [|apply Hs].
    destruct (tasks (store s) !! id0) as [t0|] eqn:E; [|done].
    cbn. intros [= <-]. destruct (Hf t0) as (-> & _). by apply Hs.
Qed.

Lemma initial_ids_match : ids_match (store initial).
Proof. intros id t. cbn. by rewrite lookup_empty. Qed.

(** C7, as the code has it.  For an id that was submitted the status query
    answers with the six fields of [TaskStatusResponse] -- [task_id],
    [status], [created_at], [started_at], [finished_at], [error_message] --
    as the task dict holds them; for an id that never was, it raises
    [HTTPException] 404. *)
Theorem get_task_status_answers (acts : list Action) (id : string) :
  ((∃ request c, Submit id request c ∈ acts) →
   ∃ t, tasks (store (run acts initial)) !! id = Some t
        ∧ get_task_status id (store (run acts initial))
          = Response {| TaskStatusResponse.task_id := id;
                        TaskStatusResponse.status := status t;
                        TaskStatusResponse.created_at := created_at t;
                        TaskStatusResponse.started_at := started_at t;
                        TaskStatusResponse.finished_at := finished_at t;
                        TaskStatusResponse.error_message := error_message t |})
  ∧ ((∀ request c, Submit id request c ∉ acts) →
     get_task_status id (store (run acts initial)) = HTTPException 404 "Task not found").
Proof.
  pose proof (run_known acts initial id) as Hknown.
  unfold get_task_status. split.
  - intros Hsub. destruct (proj2 Hknown (or_intror Hsub)) as [t Ht].
    exists t. split; [exact Ht|]. rewrite Ht.
    by rewrite (run_ids_match acts initial initial_ids_match id t Ht).
  - intros Hnot. destruct (tasks (store (run acts initial)) !! id) as [t|] eqn:Ht; [|done].
    destruct (proj1 Hknown (ltac:(by eexists))) as [[? Hin]|(request & c & Hin)].
    + cbn in Hin. by rewrite lookup_empty in Hin.
    + by destruct (Hnot request c).
Qed.

End StatusQuery.

Lemma get_task_status_answers_witness :
  (∃ t, tasks (store (run (Scenario.submitted Scenario.request) initial)) !! "t1" = Some t
        ∧ get_task_status "t1" (store (run (Scenario.submitted Scenario.request) initial))
          = Response {| TaskStatusResponse.task_id := "t1";
                        TaskStatusResponse.status := status t;
                        TaskStatusResponse.created_at := created_at t;
                        TaskStatusResponse.started_at := started_at t;
                        TaskStatusResponse.finished_at := finished_at t;
                        TaskStatusResponse.error_message := error_message t |})
  ∧ get_task_status "t2" (store (run (Scenario.submitted Scenario.request) initial))
    = HTTPException 404 "Task not found".
Proof.
  split.
  - apply (proj1 (get_task_status_answers (Scenario.submitted Scenario.request) "t1")).
    exists Scenario.request, Scenario.echo.
    apply elem_of_cons. right. apply elem_of_cons. left. reflexivity.
  - apply (proj2 (get_task_status_answers (Scenario.submitted Scenario.request) "t2")).
    intros request c Hin.
    apply elem_of_cons in Hin as [Heq|Hin]; [discriminate|].
    apply elem_of_cons in Hin as [Heq|Hin]; [discriminate|].
    by apply elem_of_nil in Hin.
Defined.

(** C7, as the specification words it, fails for the [input] field: the
    prompt a task was submitted with cannot be read off the answer of the
    status query, since two submissions that differ in the prompt only get
    the same answer. *)
Lemma status_response_omits_input :
  ¬ ∃ input_of : TaskStatusResponse.t → string,
      ∀ (acts : list Action) (id : string) (t : Task),
        tasks (store (run acts initial)) !! id = Some t →
        ∃ resp, get_task_status id (store (run acts initial)) = Response resp
                ∧ input_of resp = init_prompt t.
Proof.
  intros [input_of Hall].
  destruct (tasks (store (run (Scenario.submitted Scenario.request) initial)) !! "t1")
    as [t1|] eqn:E1; [|vm_compute in E1; discriminate].
  destruct (tasks (store (run (Scenario.submitted Scenario.other_request) initial)) !! "t1")
    as [t2|] eqn:E2; [|vm_compute in E2; discriminate].
  destruct (Hall _ _ _ E1) as (resp1 & Hresp1 & Hin1).
  destruct (Hall _ _ _ E2) as (resp2 & Hresp2 & Hin2).
  vm_compute in E1, E2, Hresp1, Hresp2.
  injection E1 as <-. injection E2 as <-.
  injection Hresp1 as <-. injection Hresp2 as <-.
  rewrite Hin1 in Hin2. discriminate.
Qed.

(** ** The runner, run without interruption *)

Lemma ending_app body tail :
  ending (body ++ tail) = match ending body with Returns => ending tail | o => o end.
Proof.
  induction body as [|i body IH]; [reflexivity|].
  destruct i as [| | | | | |[|e|b|]]; cbn; by rewrite ?IH.
Qed.

Lemma effective_app body tail :
  effective (body ++ tail)
  = match ending body with
    | Returns => body ++ effective tail
    | _ => effective body
    end.
Proof.
  induction body as [|i body IH]; [reflexivity|].
  destruct i as [| | | | | |[|e|b|]]; cbn; try done; rewrite IH; by destruct (ending body).
Qed.

Lemma effective_Forall (P : Instr → Prop) body : Forall P body → Forall P (effective body).
Proof.
  induction 1 as [|i body Hi Hbody IH]; [constructor|].
  destruct i as [| | | | | |[|e|b|]]; cbn; by constructor.
Qed.

Lemma neutral_effects ts body t :
  Forall neutral body → foldl (λ t i, task_effect ts i t) t body = t.
Proof.
  induction 1 as [|i body Hi Hbody IH]; [reflexivity|].
  cbn. by rewrite neutral_effect.
Qed.

(** On a known task a block stops at its first call that does not return
    normally, and until then rewrites the task dict as [task_effect] says. *)
Lemma run_block_known id body σ t :
  tasks σ !! id = Some t →
  (run_block id body σ).2 = ending body
  ∧ tasks (run_block id body σ).1 !! id
    = Some (foldl (λ t i, task_effect (now σ) i t) t (effective body))
  ∧ now (run_block id body σ).1 = now σ.
Proof.
  revert σ t. induction body as [|i body IH]; intros σ t Ht; [done|].
  cbn [run_block]. pose proof (exec_known id i σ t Ht) as Hk.
  destruct (exec id i σ) as [σ'|e|b|] eqn:E; try (by rewrite Hk).
  pose proof (exec_tasks _ _ _ _ E) as [Ht' Hnow].
  assert (Hσ' : tasks σ' !! id = Some (task_effect (now σ) i t)).
  { by rewrite Ht', lookup_alter, decide_True, Ht. }
  destruct (IH σ' _ Hσ') as (-> & -> & ->). rewrite Hnow.
  destruct i as [| | | | | |[|e|b|]]; try done.
Qed.

Section Outcome.
Context `{JsonLib} `{Interpreter}.

Lemma ending_callbacks evs : ending (handle_chunk_event <$> evs) = Returns.
Proof. induction evs as [|ev evs IH]; [reflexivity|exact IH]. Qed.

Lemma ending_try_block p v c : ending (try_block p v c) = first_end c.
Proof.
  unfold try_block, first_end.
  rewrite ending_app. cbn [ending].
  destruct (provider_ctor c); try reflexivity.
  destruct (get_model c); try reflexivity.
  destruct (agent_ctor c); try reflexivity.
  rewrite ending_app, ending_callbacks. cbn. by destruct (run_outcome c).
Qed.

(** The task dict when the [try] body is left: at its end, or before. *)
Lemma try_block_task p v c ts t :
  foldl (λ t i, task_effect ts i t) t (effective (try_block p v c))
  = match first_end c with
    | Returns =>
        with_finished_at ts
          (with_status TaskStatus.SUCCESS
             (with_started_at ts (with_status TaskStatus.RUNNING t)))
    | _ => with_started_at ts (with_status TaskStatus.RUNNING t)
    end.
Proof.
  rewrite <- (ending_try_block p v c).
  destruct (try_block_shape p v c) as (mid & -> & Hmid).
  cbn [effective ending foldl task_effect].
  rewrite ending_app, effective_app.
  assert (Hleft : ∀ o, ending mid = o → o ≠ Returns →
            foldl (λ t i, task_effect ts i t)
              (with_started_at ts (with_status TaskStatus.RUNNING t)) (effective mid)
            = with_started_at ts (with_status TaskStatus.RUNNING t)).
  { intros o _ _. apply neutral_effects. by apply effective_Forall. }
  destruct (ending mid) as [|e|b|] eqn:Emid;
    try (by apply (Hleft _ eq_refl)).
  cbn [ending success_tail effective]. rewrite foldl_app.
  rewrite (neutral_effects _ mid) by done. reflexivity.
Qed.

(** C5, as the code has it.  [execute_agent] on a submitted task, run
    without interruption.  If a collaborator raises an instance of
    [Exception], the task ends up FAILED with [finished_at] set and
    [error_message] the non-empty text ["Agent execution failed: " + str(e)],
    and the call returns: no exception leaves the function.  If every
    collaborator returns, the task ends up SUCCESS with [finished_at] set
    and [error_message] unset.  An exception that is no instance of
    [Exception] passes the clause [except Exception]: it leaves the
    function, and the task stays RUNNING with neither [finished_at] nor
    [error_message]; so it stays when a collaborator does not return. *)
Theorem execute_agent_outcome (id init_prompt : string) (verbose : bool)
    (c : Collaborators) (σ : Store) (t : Task) :
  tasks σ !! id = Some t →
  error_message t = None →
  ∃ t', tasks (execute_agent id init_prompt verbose c σ).1 !! id = Some t'
      ∧ match first_end c with
        | Raises e =>
            (execute_agent id init_prompt verbose c σ).2 = Returns
            ∧ status t' = TaskStatus.FAILED
            ∧ is_Some (finished_at t')
            ∧ error_message t' = Some ("Agent execution failed: " +:+ exn_str e)
            ∧ "Agent execution failed: " +:+ exn_str e ≠ EmptyString
        | Returns =>
            (execute_agent id init_prompt verbose c σ).2 = Returns
            ∧ status t' = TaskStatus.SUCCESS
            ∧ is_Some (finished_at t')
            ∧ error_message t' = None
        | Exits b =>
            (execute_agent id init_prompt verbose c σ).2 = Exits b
            ∧ status t' = TaskStatus.RUNNING
            ∧ finished_at t' = finished_at t
            ∧ error_message t' = None
        | Hangs =>
            (execute_agent id init_prompt verbose c σ).2 = Hangs
            ∧ status t' = TaskStatus.RUNNING
            ∧ finished_at t' = finished_at t
            ∧ error_message t' = None
        end.
Proof.
  intros Ht Herr. unfold execute_agent.
  destruct (run_block_known id (try_block init_prompt verbose c) σ t Ht)
    as (Hout & Htask & Hnow).
  rewrite ending_try_block in Hout. rewrite try_block_task in Htask.
  destruct (run_block id (try_block init_prompt verbose c) σ) as [σ1 out].
  cbn [fst snd] in Hout, Htask, Hnow. subst out.
  destruct (first_end c) as [|e|b|].
  - eexists. split; [exact Htask|]. cbn. by eauto.
  - destruct (run_block_known id (except_block e) σ1 _ Htask) as (Hout' & Htask' & _).
    eexists. split; [exact Htask'|]. rewrite Hout'. cbn. by eauto.
  - eexists. split; [exact Htask|]. cbn. done.
  - eexists. split; [exact Htask|]. cbn. done.
Qed.

End Outcome.

Lemma execute_agent_outcome_witness :
  tasks Scenario.pending_store !! "t1" = Some Scenario.pending_task
  ∧ error_message Scenario.pending_task = None
  ∧ ∃ t', tasks (execute_agent "t1" "echo-test" true Scenario.failing
                   Scenario.pending_store).1 !! "t1" = Some t'
      ∧ match first_end Scenario.failing with
        | Raises e =>
            (execute_agent "t1" "echo-test" true Scenario.failing
               Scenario.pending_store).2 = Returns
            ∧ status t' = TaskStatus.FAILED
            ∧ is_Some (finished_at t')
            ∧ error_message t' = Some ("Agent execution failed: " +:+ exn_str e)
            ∧ "Agent execution failed: " +:+ exn_str e ≠ EmptyString
        | Returns =>
            (execute_agent "t1" "echo-test" true Scenario.failing
               Scenario.pending_store).2 = Returns
            ∧ status t' = TaskStatus.SUCCESS
            ∧ is_Some (finished_at t')
            ∧ error_message t' = None
        | Exits b =>
            (execute_agent "t1" "echo-test" true Scenario.failing
               Scenario.pending_store).2 = Exits b
            ∧ status t' = TaskStatus.RUNNING
            ∧ finished_at t' = finished_at Scenario.pending_task
            ∧ error_message t' = None
        | Hangs =>
            (execute_agent "t1" "echo-test" true Scenario.failing
               Scenario.pending_store).2 = Hangs
            ∧ status t' = TaskStatus.RUNNING
            ∧ finished_at t' = finished_at Scenario.pending_task
            ∧ error_message t' = None
        end.
Proof.
  assert (Ht : tasks Scenario.pending_store !! "t1" = Some Scenario.pending_task)
    by (vm_compute; reflexivity).
  split; [exact Ht|]. split; [reflexivity|].
  exact (execute_agent_outcome "t1" "echo-test" true Scenario.failing
           Scenario.pending_store Scenario.pending_task Ht eq_refl).
Defined.

(** C5, as the specification words it, fails for an exception that is no
    instance of [Exception].  In scenario E the agent raises [SystemExit]:
    the exception leaves [execute_agent], and the task is left RUNNING with
    [finished_at] and [error_message] unset, whether the function is run in
    one go or statement by statement in the server. *)
Lemma system_exit_leaves_runner :
  tasks Scenario.pending_store !! "t1" = Some Scenario.pending_task
  ∧ (execute_agent "t1" "echo-test" true Scenario.exiting Scenario.pending_store).2
    = Exits (SystemExit 1)
  ∧ tasks (execute_agent "t1" "echo-test" true Scenario.exiting
             Scenario.pending_store).1 !! "t1"
    = Some {| task_id := "t1"; status := "running"; init_prompt := "echo-test";
              created_at := "10:00:00"; started_at := Some "10:00:00";
              finished_at := None; error_message := None |}
  ∧ runners (run (Scenario.started Scenario.exiting 30) initial) !! "t1"
    = Some (Exited (SystemExit 1))
  ∧ tasks (store (run (Scenario.started Scenario.exiting 30) initial)) !! "t1"
    = Some {| task_id := "t1"; status := "running"; init_prompt := "echo-test";
              created_at := "10:00:00"; started_at := Some "10:00:01";
              finished_at := None; error_message := None |}.
Proof.
  split; [vm_compute; reflexivity|]. split; [vm_compute; reflexivity|].
  split; [vm_compute; reflexivity|]. split; vm_compute; reflexivity.
Qed.

(** ** The log under the runner's statements *)

Lemma logs_of_bound σ id l recs :
  task_logs σ !! id = Some l → heap σ !! l = Some recs → logs_of σ id = Some recs.
Proof. intros Hl Hrecs. unfold logs_of, deref. rewrite Hl. cbn. by rewrite Hrecs. Qed.

Lemma new_log_fresh id σ :
  task_logs (new_log id σ) !! id = Some (length (heap σ))
  ∧ heap (new_log id σ) !! length (heap σ) = Some []
  ∧ heap σ !! length (heap σ) = None.
Proof.
  cbn. rewrite lookup_insert_eq. split; [done|]. split.
  - by apply list_lookup_middle.
  - by apply lookup_ge_None_2.
Qed.

(** A statement other than the rebinding appends to the list object bound
    to the id, if it logs, and leaves it alone otherwise. *)
Lemma exec_log id i σ σ' l recs :
  i ≠ NewLog → task_logs σ !! id = Some l → heap σ !! l = Some recs →
  exec id i σ = Ok σ' →
  task_logs σ' !! id = Some l ∧ heap σ' !! l = Some (recs ++ appended (now σ) [i]).
Proof.
  intros Hi Hl Hrecs.
  assert (Hset : ∀ f, set_field id f σ = Ok σ' →
            task_logs σ' !! id = Some l ∧ heap σ' !! l = Some (recs ++ [])).
  { intros f. unfold set_field. destruct (tasks σ !! id); [|discriminate].
    intros [= <-]. cbn. by rewrite app_nil_r. }
  destruct i as [| s | | | m | msg | [|e|b|]]; cbn; try (apply Hset); try done.
  - intros [= <-]. unfold log_task. rewrite Hl. cbn. rewrite Hl. cbn.
    split; [done|]. by rewrite list_lookup_alter_eq, Hrecs.
  - intros [= <-]. by rewrite app_nil_r.
Qed.

Lemma run_block_log id body σ t l recs :
  Forall (λ i, i ≠ NewLog) body →
  tasks σ !! id = Some t → task_logs σ !! id = Some l → heap σ !! l = Some recs →
  task_logs (run_block id body σ).1 !! id = Some l
  ∧ heap (run_block id body σ).1 !! l = Some (recs ++ appended (now σ) (effective body)).
Proof.
  intros Hbody. revert σ t recs.
  induction Hbody as [|i body Hi Hbody IH]; intros σ t recs Ht Hl Hrecs.
  { cbn. by rewrite app_nil_r. }
  cbn [run_block]. pose proof (exec_known id i σ t Ht) as Hk.
  destruct (exec id i σ) as [σ'|e|b|] eqn:E;
    try (rewrite Hk; cbn; by rewrite app_nil_r).
  pose proof (exec_tasks _ _ _ _ E) as [Ht' Hnow].
  assert (Hσ' : tasks σ' !! id = Some (task_effect (now σ) i t)).
  { by rewrite Ht', lookup_alter, decide_True, Ht. }
  destruct (exec_log _ _ _ _ _ _ Hi Hl Hrecs E) as [Hl' Hrecs'].
  destruct (IH σ' _ _ Hσ' Hl' Hrecs') as [-> ->]. rewrite Hnow.
  split; [done|]. rewrite <- app_assoc. f_equal. f_equal.
  destruct i as [| | | | | |[|e|b|]]; try done.
Qed.


(** Records appended by plain statements are framed as plain log events. *)
Lemma appended_plain ts body :
  Forall plain body →
  Forall (λ log, PyStr.startswith "[" (message log) = false) (appended ts body).
Proof.
  induction 1 as [|i body Hi Hbody IH]; [constructor|].
  destruct i; cbn; try done. by constructor.
Qed.

Lemma statuses_written_neutral body : Forall neutral body → statuses_written body = [].
Proof. induction 1 as [|[] body Hi Hbody IH]; cbn; done. Qed.

Lemma statuses_written_app body tail :
  statuses_written (body ++ tail) = statuses_written body ++ statuses_written tail.
Proof.
  induction body as [|i body IH]; [reflexivity|].
  destruct i; cbn; by rewrite ?IH.
Qed.

Section Log.
Context `{JsonLib} `{Interpreter}.

Lemma try_block_no_new_log p v c :
  ∃ rest, try_block p v c = NewLog :: rest ∧ Forall (λ i, i ≠ NewLog) rest.
Proof.
  eexists. split; [reflexivity|].
  repeat (apply Forall_cons; split; [discriminate|]).
  apply Forall_app. split; [|repeat constructor; discriminate].
  apply Forall_fmap, Forall_true. intros ev. discriminate.
Qed.

Lemma except_block_no_new_log e : Forall (λ i, i ≠ NewLog) (except_block e).
Proof. repeat constructor; discriminate. Qed.

(** The log a run of [execute_agent] on a known task leaves: the records of
    the [try] body up to the raise, if any, then those of the handler. *)
Lemma execute_agent_log id p v c σ t :
  tasks σ !! id = Some t →
  logs_of (execute_agent id p v c σ).1 id
  = Some (appended (now σ) (effective (try_block p v c))
          ++ match first_raise c with
             | Some e => appended (now σ) (except_block e)
             | None => []
             end).
Proof.
  intros Ht. unfold execute_agent, logs_of.
  destruct (run_block_known id (try_block p v c) σ t Ht) as (Hout & Htask & Hnow).
  rewrite ending_try_block in Hout. unfold first_raise.
  destruct (try_block_no_new_log p v c) as (rest & Etry & Hrest).
  destruct (new_log_fresh id σ) as (Hl & Hrecs & _).
  assert (Ht1 : tasks (new_log id σ) !! id = Some t) by done.
  destruct (run_block_log id rest (new_log id σ) t _ _ Hrest Ht1 Hl Hrecs) as [Hl1 Hrecs1].
  rewrite Etry in *. cbn [run_block exec effective appended] in *.
  destruct (run_block id rest (new_log id σ)) as [σ1 out].
  cbn [fst snd new_log now] in *. subst out.
  assert (Hleft : deref σ1 <$> task_logs σ1 !! id
                  = Some (appended (now σ) (effective rest) ++ [])).
  { rewrite Hl1. cbn [fmap option_fmap option_map]. unfold deref.
    rewrite Hrecs1. cbn [default from_option Datatypes.id]. by rewrite app_nil_r. }
  destruct (first_end c) as [|e|b|]; cbn [fst]; try exact Hleft.
  destruct (run_block_log id (except_block e) σ1 _ _ _
              (except_block_no_new_log e) Htask Hl1 Hrecs1) as [-> Hrecs2].
  cbn [fmap option_fmap option_map]. unfold deref. rewrite Hrecs2, Hnow.
  reflexivity.
Qed.

End Log.

(** ** C8: a run that fails before any callback, and its stream *)

Section FailingRun.
Context `{JsonLib} `{Interpreter}.

Lemma try_block_plain p v c : run_events c = [] → Forall plain (try_block p v c).
Proof. intros Hev. unfold try_block. rewrite Hev. cbn. repeat constructor. Qed.

Lemma except_block_plain e : Forall plain (except_block e).
Proof. repeat constructor. Qed.

Lemma first_raise_end c e : first_raise c = Some e → first_end c = Raises e.
Proof. unfold first_raise. destruct (first_end c); try discriminate. by intros [= ->]. Qed.

Lemma try_block_statuses p v c e :
  first_raise c = Some e →
  statuses_written (effective (try_block p v c)) = [TaskStatus.RUNNING].
Proof.
  intros He%first_raise_end. revert He. rewrite <- (ending_try_block p v c).
  destruct (try_block_shape p v c) as (mid & -> & Hmid).
  cbn [ending effective statuses_written]. rewrite ending_app, effective_app.
  destruct (ending mid) as [|e'|b|]; try discriminate.
  intros _. f_equal. by apply statuses_written_neutral, effective_Forall.
Qed.

Lemma try_block_progress p v c ts :
  2 ≤ length (appended ts (effective (try_block p v c))).
Proof. unfold try_block. cbn. lia. Qed.

(** C8, as the code has it.  When a collaborator raises and no callback was
    made, the status is written RUNNING and then FAILED, and the task ends
    up FAILED with the non-empty message ["Agent execution failed: " +
    str(e)].  The log then holds the runner's own progress records (at least
    two), followed by the error record and the traceback record.  A stream
    opened afterwards yields one [log] event for each of these records and
    then, last, the [status] event with status [failed] and that message. *)
Theorem failing_run_stream (id init_prompt : string) (verbose : bool)
    (c : Collaborators) (σ : Store) (t : Task) (e : Exn) :
  tasks σ !! id = Some t →
  first_raise c = Some e →
  run_events c = [] →
  ∃ t' progress,
    statuses_written (effective (try_block init_prompt verbose c) ++ except_block e)
    = [TaskStatus.RUNNING; TaskStatus.FAILED]
    ∧ tasks (execute_agent id init_prompt verbose c σ).1 !! id = Some t'
    ∧ status t' = TaskStatus.FAILED
    ∧ error_message t' = Some ("Agent execution failed: " +:+ exn_str e)
    ∧ 2 ≤ length progress
    ∧ logs_of (execute_agent id init_prompt verbose c σ).1 id
      = Some (progress
              ++ [ {| timestamp := now σ;
                      message := "❌ 錯誤: Agent execution failed: " +:+ exn_str e |};
                   {| timestamp := now σ;
                      message := "Traceback: " +:+ format_exc e |} ])
    ∧ (∀ n, 3 + (length progress + 2) ≤ n →
         relay_run id (λ _, (execute_agent id init_prompt verbose c σ).1) n (LoopHead 0)
         = (Closed,
            (log_event <$> progress)
            ++ [ log_event {| timestamp := now σ;
                              message := "❌ 錯誤: Agent execution failed: " +:+ exn_str e |};
                 log_event {| timestamp := now σ;
                              message := "Traceback: " +:+ format_exc e |};
                 {| event := "status";
                    data := dumps (JObj [("status", JStr "failed");
                                         ("finished_at", JStr (now σ));
                                         ("error_message",
                                          JStr ("Agent execution failed: " +:+ exn_str e))]) |} ])).
Proof.
  intros Ht He Hev.
  pose proof (execute_agent_log id init_prompt verbose c σ t Ht) as Hlog.
  rewrite He in Hlog. cbn [except_block appended] in Hlog.
  set (progress := appended (now σ) (effective (try_block init_prompt verbose c))) in *.
  assert (Htask : tasks (execute_agent id init_prompt verbose c σ).1 !! id
            = Some (with_finished_at (now σ)
                      (with_error_message ("Agent execution failed: " +:+ exn_str e)
                         (with_status TaskStatus.FAILED
                            (with_started_at (now σ)
                               (with_status TaskStatus.RUNNING t)))))).
  { unfold execute_agent.
    destruct (run_block_known id (try_block init_prompt verbose c) σ t Ht)
      as (Hout & Htask & Hnow).
    rewrite ending_try_block, (first_raise_end c e He) in Hout.
    rewrite try_block_task, (first_raise_end c e He) in Htask.
    destruct (run_block id (try_block init_prompt verbose c) σ) as [σ1 out].
    cbn [fst snd] in Hout, Htask, Hnow. subst out.
    destruct (run_block_known id (except_block e) σ1 _ Htask) as (_ & -> & _).
    by rewrite Hnow. }
  eexists _, progress.
  split. { rewrite statuses_written_app, (try_block_statuses _ _ _ e He). reflexivity. }
  split; [exact Htask|]. split; [reflexivity|]. split; [reflexivity|].
  split; [apply try_block_progress|]. split; [exact Hlog|].
  intros n Hn.
  rewrite (relay_run_settled id _ _ n
             (log_event <$> progress
                ++ [ {| timestamp := now σ;
                        message := "❌ 錯誤: " +:+ ("Agent execution failed: "
                                                    +:+ exn_str e) |};
                     {| timestamp := now σ;
                        message := "Traceback: " +:+ format_exc e |} ])
             Htask eq_refl);
    rewrite ?Hlog; cbn [default from_option Datatypes.id].
  - rewrite fmap_app, <- app_assoc. reflexivity.
  - apply frames_plain, Forall_app. split; [|repeat constructor].
    apply appended_plain, effective_Forall, try_block_plain, Hev.
  - rewrite length_app. cbn [length]. lia.
Qed.

End FailingRun.

Lemma failing_run_stream_witness :
  tasks Scenario.pending_store !! "t1" = Some Scenario.pending_task
  ∧ first_raise Scenario.failing = Some Scenario.boom
  ∧ run_events Scenario.failing = []
  ∧ ∃ t' (progress : list LogRecord),
      tasks (execute_agent "t1" "echo-test" true Scenario.failing
               Scenario.pending_store).1 !! "t1" = Some t'
      ∧ status t' = TaskStatus.FAILED
      ∧ 2 ≤ length progress.
Proof.
  assert (Ht : tasks Scenario.pending_store !! "t1" = Some Scenario.pending_task)
    by (vm_compute; reflexivity).
  split; [exact Ht|]. split; [reflexivity|]. split; [reflexivity|].
  destruct (failing_run_stream "t1" "echo-test" true Scenario.failing
              Scenario.pending_store Scenario.pending_task Scenario.boom
              Ht eq_refl eq_refl)
    as (t' & progress & _ & Htask & Hstatus & _ & Hlen & _).
  exists t', progress. split; [exact Htask|]. split; [exact Hstatus|exact Hlen].
Defined.

(** C8, as the specification words it, fails: the stream of scenario B
    carries eight [log] events before the [status] event. *)
Lemma failing_stream_has_log_events :
  stream_relay <$> streams (run (Scenario.started Scenario.failing 30
                                   ++ Open 0 "t1" :: replicate 12 (Next 0)) initial) !! 0
  = Some Closed
  ∧ (λ st, event <$> stream_events st)
      <$> streams (run (Scenario.started Scenario.failing 30
                          ++ Open 0 "t1" :: replicate 12 (Next 0)) initial) !! 0
    = Some ["log"; "log"; "log"; "log"; "log"; "log"; "log"; "log"; "status"]
  ∧ stream_events
      <$> streams (run (Scenario.started Scenario.failing 30
                          ++ Open 0 "t1" :: replicate 12 (Next 0)) initial) !! 0
    ≠ Some [status_event Scenario.failed_task].
Proof.
  split; [vm_compute; reflexivity|]. split; [vm_compute; reflexivity|].
  vm_compute. discriminate.
Qed.

(** ** C10: the runner starts from a new, empty log *)

Section FreshLog.
Context `{JsonLib} `{Interpreter}.

Lemma runner_step_log id σ r l recs ts :
  Forall (λ i, i ≠ NewLog) (pending_instrs r) →
  task_logs σ !! id = Some l → heap σ !! l = Some recs →
  task_logs (runner_step id (tick ts σ) r).1 !! id = Some l
  ∧ heap (runner_step id (tick ts σ) r).1 !! l
    = Some (recs ++ match next_instr r with
                    | Some (LogTask msg) => [{| timestamp := ts; message := msg |}]
                    | _ => []
                    end)
  ∧ Forall (λ i, i ≠ NewLog) (pending_instrs (runner_step id (tick ts σ) r).2).
Proof.
  intros Hr Hl Hrecs.
  assert (Hstep : ∀ i, i ≠ NewLog →
    match exec id i (tick ts σ) with
    | Ok σ' =>
        task_logs σ' !! id = Some l
        ∧ heap σ' !! l
          = Some (recs ++ match i with
                          | LogTask msg => [{| timestamp := ts; message := msg |}]
                          | _ => []
                          end)
    | _ => ∀ msg, i ≠ LogTask msg
    end).
  { intros i Hi. destruct (exec id i (tick ts σ)) as [σ'|e|b|] eqn:E;
      try (intros msg ->; discriminate).
    destruct (exec_log id i (tick ts σ) σ' l recs Hi Hl Hrecs E) as [-> ->].
    split; [done|]. by destruct i. }
  assert (Hquiet : ∀ i, (∀ msg, i ≠ LogTask msg) →
            recs ++ match i with
                    | LogTask msg => [{| timestamp := ts; message := msg |}]
                    | _ => []
                    end = recs).
  { intros i Hno. destruct i; try (by rewrite app_nil_r). by destruct (Hno msg). }
  destruct r as [[|i rest] | [|i rest] | | e | b]; cbn [pending_instrs] in Hr;
    cbn [runner_step next_instr]; try (rewrite app_nil_r; by repeat split).
  - pose proof Hr as Hall. apply Forall_cons in Hr as [Hi Hrest]. specialize (Hstep i Hi).
    destruct (exec id i (tick ts σ)) as [σ'|e|b|]; cbn [fst snd pending_instrs].
    + destruct Hstep as [-> ->]. done.
    + rewrite (Hquiet i Hstep). split; [done|]. split; [done|].
      repeat constructor; discriminate.
    + rewrite (Hquiet i Hstep). by repeat split.
    + rewrite (Hquiet i Hstep). by repeat split.
  - pose proof Hr as Hall. apply Forall_cons in Hr as [Hi Hrest]. specialize (Hstep i Hi).
    destruct (exec id i (tick ts σ)) as [σ'|e|b|]; cbn [fst snd pending_instrs].
    + destruct Hstep as [-> ->]. done.
    + rewrite (Hquiet i Hstep). by repeat split.
    + rewrite (Hquiet i Hstep). by repeat split.
    + rewrite (Hquiet i Hstep). by repeat split.
Qed.

Lemma runner_steps_log id times σ r l recs :
  Forall (λ i, i ≠ NewLog) (pending_instrs r) →
  task_logs σ !! id = Some l → heap σ !! l = Some recs →
  task_logs (runner_steps id times σ r).1 !! id = Some l
  ∧ heap (runner_steps id times σ r).1 !! l = Some (recs ++ steps_appended id times σ r).
Proof.
  revert σ r recs. induction times as [|ts times IH]; intros σ r recs Hr Hl Hrecs.
  { cbn. by rewrite app_nil_r. }
  destruct (runner_step_log id σ r l recs ts Hr Hl Hrecs) as (Hl' & Hrecs' & Hr').
  cbn [runner_steps steps_appended].
  destruct (runner_step id (tick ts σ) r) as [σ' r']. cbn [fst snd] in *.
  destruct (IH σ' r' _ Hr' Hl' Hrecs') as [-> ->].
  by rewrite app_assoc.
Qed.

Lemma runner_steps_known id times σ r :
  is_Some (tasks σ !! id) → is_Some (tasks (runner_steps id times σ r).1 !! id).
Proof.
  revert σ r. induction times as [|ts times IH]; intros σ r Hσ; [done|].
  cbn [runner_steps].
  destruct (runner_step_tasks id (tick ts σ) r) as (f & _ & Hf).
  destruct (runner_step id (tick ts σ) r) as [σ' r']. cbn [fst] in Hf.
  apply IH. rewrite Hf, lookup_alter_eq. by apply fmap_is_Some.
Qed.

(** C10.  Whatever list was bound to the task id before, the first
    statement of the runner binds the id to a new list object -- one the
    heap did not hold -- and that list is empty.  From then on, whenever
    the clock moves and however far the runner has got, the id is still
    bound to that object, whose records are exactly those the runner has
    appended since, in order; and a relay that starts its loop at offset 0
    takes exactly these records as its slice. *)
Theorem runner_starts_from_new_log (id init_prompt : string) (verbose : bool)
    (c : Collaborators) (σ : Store) (t : Task) (ts : string) (times : list string) :
  tasks σ !! id = Some t →
  logs_of (runner_step id (tick ts σ) (start_runner init_prompt verbose c)).1 id = Some []
  ∧ heap σ !! length (heap σ) = None
  ∧ task_logs
      (runner_steps id times
         (runner_step id (tick ts σ) (start_runner init_prompt verbose c)).1
         (runner_step id (tick ts σ) (start_runner init_prompt verbose c)).2).1 !! id
    = Some (length (heap σ))
  ∧ logs_of
      (runner_steps id times
         (runner_step id (tick ts σ) (start_runner init_prompt verbose c)).1
         (runner_step id (tick ts σ) (start_runner init_prompt verbose c)).2).1 id
    = Some (steps_appended id times
              (runner_step id (tick ts σ) (start_runner init_prompt verbose c)).1
              (runner_step id (tick ts σ) (start_runner init_prompt verbose c)).2)
  ∧ relay_step id
      (runner_steps id times
         (runner_step id (tick ts σ) (start_runner init_prompt verbose c)).1
         (runner_step id (tick ts σ) (start_runner init_prompt verbose c)).2).1
      (LoopHead 0)
    = (ForLoop 0 (length (heap σ))
         (steps_appended id times
            (runner_step id (tick ts σ) (start_runner init_prompt verbose c)).1
            (runner_step id (tick ts σ) (start_runner init_prompt verbose c)).2),
       []).
Proof.
  intros Ht. unfold start_runner.
  destruct (try_block_no_new_log init_prompt verbose c) as (rest & -> & Hrest).
  cbn [runner_step exec fst snd].
  destruct (new_log_fresh id (tick ts σ)) as (Hl & Hrecs & Hnone).
  cbn [tick heap] in Hl, Hrecs, Hnone.
  destruct (runner_steps_log id times (new_log id (tick ts σ)) (Try rest)
              (length (heap σ)) [] Hrest Hl Hrecs) as [Hl' Hrecs'].
  destruct (runner_steps_known id times (new_log id (tick ts σ)) (Try rest))
    as [t' Ht']; [by eexists|].
  cbn [app] in Hrecs'.
  split; [by apply (logs_of_bound _ _ _ _ Hl Hrecs)|].
  split; [exact Hnone|]. split; [exact Hl'|].
  split; [by apply (logs_of_bound _ _ _ _ Hl' Hrecs')|].
  cbn [relay_step]. rewrite Ht', Hl'. unfold deref. by rewrite Hrecs', drop_0.
Qed.

End FreshLog.

Lemma runner_starts_from_new_log_witness :
  tasks Scenario.failed_store !! "t1" = Some Scenario.failed_task
  ∧ length <$> logs_of Scenario.failed_store "t1" = Some 8
  ∧ logs_of (runner_step "t1" (tick "10:05:00" Scenario.failed_store)
               (start_runner "echo-test" true Scenario.echo)).1 "t1" = Some [].
Proof.
  assert (Ht : tasks Scenario.failed_store !! "t1" = Some Scenario.failed_task)
    by (vm_compute; reflexivity).
  split; [exact Ht|]. split; [vm_compute; reflexivity|].
  exact (proj1 (runner_starts_from_new_log "t1" "echo-test" true Scenario.echo
                  Scenario.failed_store Scenario.failed_task "10:05:00" [] Ht)).
Defined.

(** ** C2 and C4: where the stream and the log part ways *)

(** C2, at a failing schedule.  The generator sets [last_index] to the
    length of the live list, not to the end of the slice it has iterated
    over.  In [Scenario.racing] the second record is appended while the
    generator is suspended at the [yield] of the first one: that poll has
    yielded one record and leaves the offset at 2.  The task's log ends with
    eight records, none of which makes the loop body raise; the stream ends
    with the events of the first and of the third to eighth, then the
    [status] event; the second record is never sent. *)
Theorem relay_skips_record_appended_during_poll :
  ∃ log evs t,
    logs_of (store (run Scenario.racing initial)) "t1" = Some log
    ∧ tasks (store (run Scenario.racing initial)) !! "t1" = Some t
    ∧ streams (run Scenario.racing initial) !! 0
      = Some {| stream_task := "t1"; stream_relay := Closed; stream_events := evs |}
    ∧ streams (run Scenario.racing_poll initial) !! 0
      = Some {| stream_task := "t1"; stream_relay := StatusCheck 2;
                stream_events := (frames (take 1 log)).1 |}
    ∧ (frames log).2 = None
    ∧ length log = 8
    ∧ log !! 1 = Some {| timestamp := "10:00:01"; message := "🔧 初始化 LLM..." |}
    ∧ evs = (frames (take 1 log ++ drop 2 log)).1 ++ [status_event t]
    ∧ evs ≠ (frames log).1 ++ [status_event t]
    ∧ existsb (λ ev, String.eqb (data ev)
                       (data (log_event {| timestamp := "10:00:01";
                                           message := "🔧 初始化 LLM..." |}))) evs
      = false.
Proof.
  eexists _, _, _.
  split; [vm_compute; reflexivity|]. split; [vm_compute; reflexivity|].
  split; [vm_compute; reflexivity|]. split; [vm_compute; reflexivity|].
  split; [vm_compute; reflexivity|].
  split; [reflexivity|]. split; [reflexivity|].
  split; [vm_compute; reflexivity|]. split; [|vm_compute; reflexivity].
  intros Heq. apply (f_equal length) in Heq. vm_compute in Heq. discriminate.
Qed.

(** C4, at a failing input.  On the path without exception the runner
    writes SUCCESS first and appends its last record afterwards, whereas
    the handler appends its records before it writes FAILED.  In scenario A,
    after fifteen statements the status is [success] and the log has seven
    records; two statements later the log has an eighth one.  A client that
    reads its stream to the end in between gets the [status] event and is
    closed without the last record. *)
Theorem success_is_logged_after_terminal_status :
  ∃ before_ after_ evs,
    status <$> tasks (store (run (Scenario.started Scenario.echo 15) initial)) !! "t1"
    = Some TaskStatus.SUCCESS
    ∧ runners (run (Scenario.started Scenario.echo 15) initial) !! "t1"
      = Some (Try [SetFinishedAt; LogTask "✅ Agent 執行完成"])
    ∧ logs_of (store (run (Scenario.started Scenario.echo 15) initial)) "t1" = Some before_
    ∧ logs_of (store (run (Scenario.started Scenario.echo 17) initial)) "t1" = Some after_
    ∧ after_ = before_ ++ [{| timestamp := "10:00:01"; message := "✅ Agent 執行完成" |}]
    ∧ streams (run Scenario.early_reader initial) !! 0
      = Some {| stream_task := "t1"; stream_relay := Closed; stream_events := evs |}
    ∧ logs_of (store (run Scenario.early_reader initial)) "t1" = Some after_
    ∧ event <$> evs = ["log"; "log"; "log"; "log"; "log"; "log"; "progress"; "status"]
    ∧ length after_ = 8.
Proof.
  eexists _, _, _.
  split; [vm_compute; reflexivity|]. split; [vm_compute; reflexivity|].
  split; [vm_compute; reflexivity|]. split; [vm_compute; reflexivity|].
  split; [vm_compute; reflexivity|]. split; [vm_compute; reflexivity|].
  split; [vm_compute; reflexivity|]. split; [vm_compute; reflexivity|].
  reflexivity.
Qed.

(** * Further properties of the server *)

(** ** The relay while the task is running *)

Section RelayOpen.
Context `{JsonLib}.

(** X1.  As long as the task is known and its status is neither SUCCESS nor
    FAILED, a generator is never closed by [break], whatever the store does
    otherwise: it goes on polling, unless an exception of the decoder ends
    it.  Every event it yields meanwhile is one that the body of the [for]
    loop yields for a log record. *)
Theorem relay_stays_open (id : string) (env : nat → Store) (n : nat) (r : Relay) :
  r ≠ Closed →
  (∀ k, ∃ t, tasks (env k) !! id = Some t ∧ is_terminal (status t) = false) →
  (relay_run id env n r).1 ≠ Closed
  ∧ ∃ recs, Forall2 (λ log ev, frame log = Yields ev) recs (relay_run id env n r).2.
Proof.
  revert env r. induction n as [|n IH]; intros env r Hr Hrun.
  { split; [done|]. exists []. constructor. }
  destruct (Hrun 0) as (t & Ht & Hs).
  assert (Hnext : ∀ r1 es1, relay_step id (env 0) r = (r1, es1) →
            r1 ≠ Closed ∧ ∃ recs, Forall2 (λ log ev, frame log = Yields ev) recs es1).
  { intros r1 es1.
    destruct r as [li | li cl [|log new] | li | li | | e]; cbn [relay_step];
      rewrite ?Ht, ?Hs; try done;
      try (intros [= <- <-]; split; [done|exists []; constructor]).
    - destruct (task_logs (env 0) !! id); intros [= <- <-];
        (split; [done|exists []; constructor]).
    - destruct (frame log) as [ev|e] eqn:Ef; intros [= <- <-]; (split; [done|]).
      + exists [log]. by repeat constructor.
      + exists []. constructor. }
  cbn [relay_run]. destruct (relay_step id (env 0) r) as [r1 es1] eqn:E1.
  destruct (Hnext r1 es1 eq_refl) as (Hr1 & recs1 & Hrecs1).
  destruct (IH (λ k, env (S k)) r1 Hr1) as (Hr2 & recs2 & Hrecs2).
  { intros k. apply Hrun. }
  destruct (relay_run id (λ k, env (S k)) n r1) as [r2 es2]. cbn [fst snd] in *.
  split; [done|]. exists (recs1 ++ recs2). by apply Forall2_app.
Qed.

End RelayOpen.

Lemma relay_stays_open_witness :
  LoopHead 0 ≠ Closed
  ∧ (∀ k : nat, ∃ t, tasks (Scenario.running_store 6) !! "t1" = Some t
                     ∧ is_terminal (status t) = false)
  ∧ (relay_run "t1" (λ _, Scenario.running_store 6) 9 (LoopHead 0)).1 ≠ Closed
  ∧ ∃ recs, Forall2 (λ log ev, frame log = Yields ev) recs
              (relay_run "t1" (λ _, Scenario.running_store 6) 9 (LoopHead 0)).2.
Proof.
  assert (Hr : LoopHead 0 ≠ Closed) by discriminate.
  assert (Hrun : ∀ k : nat, ∃ t, tasks (Scenario.running_store 6) !! "t1" = Some t
                                 ∧ is_terminal (status t) = false).
  { intros _. eexists. split; vm_compute; reflexivity. }
  exact (conj Hr (conj Hrun
           (relay_stays_open "t1" (λ _, Scenario.running_store 6) 9 (LoopHead 0) Hr Hrun))).
Defined.

(** ** Polls between which the log grows *)

Section QuietPolls.
Context `{JsonLib}.

Lemma frames_app_yielded logs1 logs2 evs :
  frames (logs1 ++ logs2) = (evs, None) →
  ∃ evs1 evs2, frames logs1 = (evs1, None) ∧ frames logs2 = (evs2, None)
               ∧ evs = evs1 ++ evs2.
Proof.
  rewrite frames_app. destruct (frames logs1) as [evs1 [e|]]; [discriminate|].
  destruct (frames logs2) as [evs2 e2]. intros [= <- ->]. by exists evs1, evs2.
Qed.

(** One turn of the loop against a store that does not change, the task
    running and no record from the offset on making the body raise: these
    records are sent in order and the offset becomes the length of the log. *)
Lemma relay_poll_quiet id σ t last_index evs :
  tasks σ !! id = Some t → is_terminal (status t) = false →
  frames (drop last_index (default [] (logs_of σ id))) = (evs, None) →
  relay_run id (λ _, σ) (poll_steps id σ last_index) (LoopHead last_index)
  = (LoopHead (default last_index (length <$> logs_of σ id)), evs).
Proof.
  intros Ht Hs. unfold poll_steps, logs_of.
  destruct (task_logs σ !! id) as [current_logs|] eqn:El;
    cbn [fmap option_fmap option_map default from_option Datatypes.id]; intros Hevs.
  - replace (length (drop last_index (deref σ current_logs)) + 4)
      with (S (length (drop last_index (deref σ current_logs)) + 3)) by lia.
    cbn [relay_run relay_step]. rewrite Ht, El, relay_run_for_loop, Hevs.
    cbn [relay_run relay_step]. rewrite Ht, Hs.
    cbn [relay_run relay_step app]. by rewrite app_nil_r.
  - rewrite drop_nil in Hevs. cbn [frames] in Hevs. injection Hevs as <-.
    cbn [relay_run relay_step]. rewrite Ht, El. cbn [relay_run relay_step].
    by rewrite Ht, Hs.
Qed.

Lemma final_log_prefix id l σs :
  appended_between id l σs → ∃ more, final_log id l σs = l ++ more.
Proof.
  revert l. induction σs as [|σ σs IH]; intros l Hgrow.
  { exists []. by rewrite app_nil_r. }
  destruct Hgrow as (t & more & _ & _ & Hlog & Hrest).
  destruct (IH _ Hrest) as [more' Hfinal].
  exists (more ++ more'). unfold final_log in *. cbn [foldl].
  rewrite Hlog. cbn [default from_option Datatypes.id].
  by rewrite Hfinal, app_assoc.
Qed.

(** X2.  A stream read turn by turn, no record being appended while a turn
    is under way.  If the generator has consumed the log [l], the log only
    grows by appending from one turn to the next, the task running all the
    while, and none of the records appended since makes the decoder raise
    an exception other than [ValueError], then the turns together yield the
    event of every record appended since, once and in order, and the offset
    ends at the length of the last log. *)
Theorem polls_between_appends (id : string) (l : list LogRecord) (σs : list Store)
    (evs : list Event) :
  appended_between id l σs →
  frames (drop (length l) (final_log id l σs)) = (evs, None) →
  relay_polls id σs (LoopHead (length l))
  = (LoopHead (length (final_log id l σs)), evs).
Proof.
  revert l evs. induction σs as [|σ σs IH]; intros l evs Hgrow.
  { unfold final_log. cbn. rewrite drop_all. by intros [= <-]. }
  pose proof Hgrow as (t & more & Ht & Hs & Hlog & Hrest).
  destruct (final_log_prefix id _ σs Hrest) as [more' Hfinal].
  assert (Hlast : final_log id l (σ :: σs) = (l ++ more) ++ more').
  { unfold final_log in *. cbn [foldl]. rewrite Hlog.
    cbn [default from_option Datatypes.id]. exact Hfinal. }
  rewrite Hlast, <- (app_assoc l more more'), drop_app_length.
  intros (evs1 & evs2 & Hevs1 & Hevs2 & ->)%frames_app_yielded.
  cbn [relay_polls].
  rewrite (relay_poll_quiet id σ t (length l) evs1 Ht Hs); rewrite Hlog;
    cbn [fmap option_fmap option_map default from_option Datatypes.id];
    [|by rewrite drop_app_length].
  rewrite (IH (l ++ more) evs2 Hrest).
  - by rewrite Hfinal, app_assoc.
  - by rewrite Hfinal, drop_app_length.
Qed.

End QuietPolls.

Lemma polls_between_appends_witness :
  appended_between "t1" [] [Scenario.running_store 4; Scenario.running_store 6]
  ∧ frames (drop (length (@nil LogRecord))
              (final_log "t1" [] [Scenario.running_store 4; Scenario.running_store 6]))
    = ((frames (drop (length (@nil LogRecord))
                  (final_log "t1" []
                     [Scenario.running_store 4; Scenario.running_store 6]))).1, None)
  ∧ relay_polls "t1" [Scenario.running_store 4; Scenario.running_store 6]
      (LoopHead (length (@nil LogRecord)))
    = (LoopHead (length (final_log "t1" []
                           [Scenario.running_store 4; Scenario.running_store 6])),
       (frames (drop (length (@nil LogRecord))
                  (final_log "t1" []
                     [Scenario.running_store 4; Scenario.running_store 6]))).1).
Proof.
  assert (Hgrow : appended_between "t1" []
                    [Scenario.running_store 4; Scenario.running_store 6]).
  { cbn [appended_between app].
    eexists _, _. split; [vm_compute; reflexivity|]. split; [reflexivity|].
    split; [vm_compute; reflexivity|]. cbn [app].
    eexists _, _. split; [vm_compute; reflexivity|]. split; [reflexivity|].
    split; [vm_compute; reflexivity|]. exact I. }
  assert (Hevs : frames (drop (length (@nil LogRecord))
                           (final_log "t1" []
                              [Scenario.running_store 4; Scenario.running_store 6]))
                 = ((frames (drop (length (@nil LogRecord))
                               (final_log "t1" []
                                  [Scenario.running_store 4; Scenario.running_store 6]))).1,
                    None)) by (vm_compute; reflexivity).
  exact (conj Hgrow (conj Hevs (polls_between_appends "t1" [] _ _ Hgrow Hevs))).
Defined.

(** ** The status only moves forward *)

Section Forward.
Context `{JsonLib} `{Interpreter}.

Lemma runner_step_rank id σ r t :
  tasks σ !! id = Some t → consistent r t →
  ∃ t', tasks (runner_step id σ r).1 !! id = Some t'
        ∧ status_rank (status t) ≤ status_rank (status t').
Proof.
  intros Ht Hc.
  assert (Hset : ∀ f, ∃ σ', set_field id f σ = Ok σ' ∧ tasks σ' !! id = Some (f t)).
  { intros f. eexists. split; [by apply set_field_ok|]. cbn. apply lookup_insert_eq. }
  assert (Hkeep : ∀ i σ', neutral i → exec id i σ = Ok σ' → tasks σ' !! id = Some t).
  { intros i σ' Hi E. apply exec_tasks in E as [-> _].
    rewrite lookup_alter_eq, Ht. cbn. by rewrite neutral_effect. }
  inversion Hc as
    [ mid t0 Hmid Hu | mid t0 Hmid Hu | mid t0 Hmid Hu | mid t0 Hmid Hu
    | msg t0 Hu | rest t0 Hrest Hs Hf He
    | pre m t0 Hpre Hm Hu | m t0 Hm Hu | m t0 Hm Hs Hf He | m t0 Hm Hs Hf He
    | t0 Hs Hf He | m t0 Hm Hs Hf He | b t0 Hu ]; subst; cbn [runner_step exec];
    try (destruct Hu as (Hs & _)).
  - by exists t.
  - destruct (Hset (with_status TaskStatus.RUNNING)) as (σ' & -> & Hσ').
    eexists. split; [done|]. cbn. rewrite Hs. cbn. lia.
  - destruct (Hset (with_started_at (now σ))) as (σ' & -> & Hσ'). by eexists.
  - destruct mid as [|i mid]; cbn [app success_tail runner_step exec].
    + destruct (Hset (with_status TaskStatus.SUCCESS)) as (σ' & -> & Hσ').
      eexists. split; [done|]. cbn. rewrite Hs. cbn. lia.
    + apply Forall_cons in Hmid as [Hi _]. exists t. split; [|done].
      destruct (exec id i σ) as [σ'|e|b|] eqn:E; cbn [fst]; try done.
      by apply (Hkeep i).
  - destruct (Hset (with_finished_at (now σ))) as (σ' & -> & Hσ'). by eexists.
  - destruct rest as [|i rest]; [by exists t|].
    apply Forall_cons in Hrest as [Hi _]. destruct i; try done.
    cbn. rewrite tasks_log_task. by exists t.
  - destruct pre as [|i pre]; cbn [app failure_tail runner_step exec].
    + destruct (Hset (with_status TaskStatus.FAILED)) as (σ' & -> & Hσ').
      eexists. split; [done|]. cbn. rewrite Hs. cbn. lia.
    + apply Forall_cons in Hpre as [Hi _]. destruct i; try done.
      cbn. rewrite tasks_log_task. by exists t.
  - destruct (Hset (with_error_message m)) as (σ' & -> & Hσ'). by eexists.
  - destruct (Hset (with_finished_at (now σ))) as (σ' & -> & Hσ'). by eexists.
  - by exists t.
  - by exists t.
  - by exists t.
  - by exists t.
Qed.

Lemma act_rank a s id t :
  tasks_follow_runners s →
  tasks (store s) !! id = Some t →
  ∃ t', tasks (store (act a s)) !! id = Some t'
        ∧ status_rank (status t) ≤ status_rank (status t').
Proof.
  intros Inv Ht.
  assert (Hsame : ∃ t', tasks (store s) !! id = Some t'
                        ∧ status_rank (status t) ≤ status_rank (status t'))
    by by eexists.
  destruct a as [id0 request c | id0 | conn id0 | conn | ts]; cbn.
  - destruct (tasks (store s) !! id0) eqn:E; [done|]. cbn.
    rewrite lookup_insert_ne; [done|]. intros ->. congruence.
  - destruct (runners s !! id0) as [r|] eqn:Er; [|done].
    destruct (decide (id0 = id)) as [->|Hne].
    + destruct (Inv id t Ht) as (r0 & Hr0 & Hc).
      rewrite Er in Hr0. injection Hr0 as <-.
      destruct (runner_step_rank id (store s) r t Ht Hc) as (t' & Ht' & Hs).
      destruct (runner_step id (store s) r) as [σ' r']. by exists t'.
    + destruct (runner_step_tasks id0 (store s) r) as (f & _ & Hf).
      destruct (runner_step id0 (store s) r) as [σ' r']. cbn in *.
      rewrite Hf, lookup_alter_ne by done. done.
  - unfold stream_task_logs. by destruct (tasks (store s) !! id0).
  - destruct (streams s !! conn) as [st|]; [|done]. by destruct (relay_step _ _ _).
  - done.
Qed.

(** X4.  In the running server the status of a task only moves forward
    along PENDING, RUNNING, then SUCCESS or FAILED: whatever happens after a
    state in which the task has some status, its status is never an earlier
    one, and once it is SUCCESS or FAILED it stays what it is. *)
Theorem status_only_advances (acts more : list Action) (id : string) (t : Task) :
  tasks (store (run acts initial)) !! id = Some t →
  ∃ t', tasks (store (run (acts ++ more) initial)) !! id = Some t'
        ∧ status_rank (status t) ≤ status_rank (status t')
        ∧ (terminal t → status t' = status t).
Proof.
  intros Ht.
  assert (Hrank : ∃ t', tasks (store (run (acts ++ more) initial)) !! id = Some t'
                        ∧ status_rank (status t) ≤ status_rank (status t')).
  { revert Ht. unfold run. rewrite foldl_app. fold (run acts initial).
    pose proof (reachable_follows acts) as Inv.
    generalize dependent (run acts initial). intros s Inv. revert s Inv t.
    induction more as [|a more IH]; intros s Inv t Ht; [by eexists|].
    cbn [foldl].
    destruct (act_rank a s id t Inv Ht) as (t1 & Ht1 & Hs1).
    destruct (IH (act a s) (act_follows a s Inv) t1 Ht1) as (t' & Ht' & Hs').
    exists t'. split; [done|]. lia. }
  destruct Hrank as (t' & Ht' & Hle). exists t'. split; [done|]. split; [done|].
  intros Hterm.
  destruct (terminal_status_is_final acts more id t Ht Hterm) as (t'' & Ht'' & Hs).
  congruence.
Qed.

End Forward.

Lemma status_only_advances_witness :
  tasks (store (run (Scenario.started Scenario.echo 3) initial)) !! "t1"
  = Some {| task_id := "t1"; status := "running"; init_prompt := "echo-test";
            created_at := "10:00:00"; started_at := Some "10:00:01";
            finished_at := None; error_message := None |}
  ∧ ∃ t', tasks (store (run (Scenario.started Scenario.echo 3
                              ++ replicate 20 (Step "t1")) initial)) !! "t1" = Some t'
          ∧ 1 ≤ status_rank (status t').
Proof.
  assert (Ht : tasks (store (run (Scenario.started Scenario.echo 3) initial)) !! "t1"
    = Some {| task_id := "t1"; status := "running"; init_prompt := "echo-test";
              created_at := "10:00:00"; started_at := Some "10:00:01";
              finished_at := None; error_message := None |})
    by (vm_compute; reflexivity).
  split; [exact Ht|].
  destruct (status_only_advances _ (replicate 20 (Step "t1")) "t1" _ Ht)
    as (t' & Ht' & Hle & _).
  exists t'. split; [exact Ht'|exact Hle].
Defined.

(** ** The runner on an id that is not a task *)

Section UnknownTask.
Context `{JsonLib} `{Interpreter}.

(** X5.  [execute_agent] called with an id that is no key of [tasks].  The
    first write to the task dict raises [KeyError]; the handler logs the
    error, whose text ends with the [repr] of the id, and the traceback,
    and then raises [KeyError] itself on its own write of the status, so
    the exception leaves the function.  [tasks] is left as it was, and the
    log of the id holds these two records and nothing else. *)
Theorem execute_agent_unknown_task (id init_prompt : string) (verbose : bool)
    (c : Collaborators) (σ : Store) :
  tasks σ !! id = None →
  (execute_agent id init_prompt verbose c σ).2 = Raises (KeyError id)
  ∧ tasks (execute_agent id init_prompt verbose c σ).1 = tasks σ
  ∧ logs_of (execute_agent id init_prompt verbose c σ).1 id
    = Some [ {| timestamp := now σ;
                message := "❌ 錯誤: Agent execution failed: " +:+ repr id |};
             {| timestamp := now σ;
                message := "Traceback: " +:+ format_exc (KeyError id) |} ].
Proof.
  intros Hnone.
  assert (Htry : run_block id (try_block init_prompt verbose c) σ
                 = (new_log id σ, Raises (KeyError id))).
  { unfold try_block. cbn [app run_block exec]. unfold set_field.
    cbn [new_log tasks]. by rewrite Hnone. }
  assert (Hexcept : run_block id (except_block (KeyError id)) (new_log id σ)
            = (log_task id ("Traceback: " +:+ format_exc (KeyError id))
                 (log_task id ("❌ 錯誤: " +:+ ("Agent execution failed: " +:+ repr id))
                    (new_log id σ)),
               Raises (KeyError id))).
  { cbn [except_block run_block exec exn_str]. unfold set_field.
    rewrite !tasks_log_task. cbn [new_log tasks]. by rewrite Hnone. }
  unfold execute_agent. rewrite Htry, Hexcept. cbn [fst snd].
  split; [done|]. split; [by rewrite !tasks_log_task|].
  destruct (new_log_fresh id σ) as (Hl & Hrecs & _).
  destruct (exec_log id (LogTask ("❌ 錯誤: " +:+ ("Agent execution failed: " +:+ repr id)))
              (new_log id σ) _ _ _ ltac:(discriminate) Hl Hrecs eq_refl) as [Hl1 Hrecs1].
  destruct (exec_log id (LogTask ("Traceback: " +:+ format_exc (KeyError id)))
              _ _ _ _ ltac:(discriminate) Hl1 Hrecs1 eq_refl) as [Hl2 Hrecs2].
  rewrite now_log_task in Hrecs2.
  exact (logs_of_bound _ _ _ _ Hl2 Hrecs2).
Qed.

End UnknownTask.

Lemma execute_agent_unknown_task_witness :
  tasks Scenario.pending_store !! "t2" = None
  ∧ (execute_agent "t2" "echo-test" true Scenario.echo Scenario.pending_store).2
    = Raises (KeyError "t2")
  ∧ tasks (execute_agent "t2" "echo-test" true Scenario.echo Scenario.pending_store).1
    = tasks Scenario.pending_store
  ∧ logs_of (execute_agent "t2" "echo-test" true Scenario.echo Scenario.pending_store).1
      "t2"
    = Some [ {| timestamp := now Scenario.pending_store;
                message := "❌ 錯誤: Agent execution failed: " +:+ repr "t2" |};
             {| timestamp := now Scenario.pending_store;
                message := "Traceback: " +:+ format_exc (KeyError "t2") |} ].
Proof.
  assert (Hnone : tasks Scenario.pending_store !! "t2" = None)
    by (vm_compute; reflexivity).
  exact (conj Hnone (execute_agent_unknown_task "t2" "echo-test" true
                       Scenario.echo Scenario.pending_store Hnone)).
Defined.

(** ** The fields written at creation *)

Section Identity.
Context `{JsonLib} `{Interpreter}.

Lemma act_keeps_identity a s id t :
  tasks (store s) !! id = Some t →
  ∃ t', tasks (store (act a s)) !! id = Some t'
        ∧ task_id t' = task_id t ∧ init_prompt t' = init_prompt t
        ∧ created_at t' = created_at t.
Proof.
  intros Ht.
  destruct (act_tasks a s)
    as [(id0 & request & c & t0 & -> & Hnew & -> & _) | (_ & id0 & f & Hf & ->)].
  - exists t. rewrite lookup_insert_ne; [done|]. intros ->. congruence.
  - destruct (decide (id0 = id)) as [->|Hne].
    + exists (f t). rewrite lookup_alter_eq, Ht. split; [done|]. apply Hf.
    + exists t. by rewrite lookup_alter_ne.
Qed.

(** X6.  The input of a task is stored for good.  Whatever happens after
    POST /run has stored a task under a new id, the dict under that id keeps
    the [task_id], the [init_prompt] of the request and the [created_at] of
    the moment of submission. *)
Theorem submitted_fields_are_kept (pre post : list Action) (id : string)
    (request : RunRequest.t) (c : Collaborators) :
  tasks (store (run pre initial)) !! id = None →
  ∃ t, tasks (store (run (pre ++ Submit id request c :: post) initial)) !! id = Some t
       ∧ task_id t = id
       ∧ init_prompt t = RunRequest.init_prompt request
       ∧ created_at t = now (store (run pre initial)).
Proof.
  intros Hnew. unfold run. rewrite foldl_app. fold (run pre initial).
  cbn [foldl]. 
  assert (Hsub : ∃ t, tasks (store (act (Submit id request c) (run pre initial))) !! id
                      = Some t
                      ∧ task_id t = id
                      ∧ init_prompt t = RunRequest.init_prompt request
                      ∧ created_at t = now (store (run pre initial))).
  { cbn [act]. rewrite Hnew. cbn. rewrite lookup_insert_eq. by eexists. }
  generalize dependent (act (Submit id request c) (run pre initial)).
  generalize (now (store (run pre initial))). clear Hnew.
  intros ts s Hsub. revert s Hsub.
  induction post as [|a post IH]; intros s Hsub; [exact Hsub|].
  cbn [foldl]. apply IH.
  destruct Hsub as (t & Ht & Hid & Hp & Hc).
  destruct (act_keeps_identity a s id t Ht) as (t' & Ht' & Hid' & Hp' & Hc').
  exists t'. split; [done|]. split; [congruence|]. split; congruence.
Qed.

End Identity.

Lemma submitted_fields_are_kept_witness :
  tasks (store (run [Tick "10:00:00"] initial)) !! "t1" = None
  ∧ ∃ t, tasks (store (run ([Tick "10:00:00"]
                             ++ Submit "t1" Scenario.request Scenario.failing
                                :: Tick "10:00:01" :: replicate 30 (Step "t1"))
                          initial)) !! "t1" = Some t
         ∧ task_id t = "t1"
         ∧ init_prompt t = RunRequest.init_prompt Scenario.request
         ∧ created_at t = now (store (run [Tick "10:00:00"] initial)).
Proof.
  assert (Hnew : tasks (store (run [Tick "10:00:00"] initial)) !! "t1" = None)
    by (vm_compute; reflexivity).
  exact (conj Hnew (submitted_fields_are_kept [Tick "10:00:00"]
                      (Tick "10:00:01" :: replicate 30 (Step "t1")) "t1"
                      Scenario.request Scenario.failing Hnew)).
Defined.

(** ** [started_at] *)

Lemma not_awaiting_body mid :
  Forall neutral mid → awaiting_start (Try (mid ++ success_tail)) = false.
Proof. intros Hmid. destruct Hmid as [|i mid Hi _]; [done|]. by destruct i. Qed.

Lemma not_awaiting_logging rest :
  Forall logging rest → awaiting_start (Try rest) = false.
Proof. intros Hrest. destruct Hrest as [|i rest Hi _]; [done|]. by destruct i. Qed.

Section Started.
Context `{JsonLib} `{Interpreter}.

(** One statement of the runner of a known task keeps [started_at] in step
    with the runner. *)
Lemma runner_step_start id σ r t :
  tasks σ !! id = Some t → consistent r t → start_follows r t →
  ∃ t', tasks (runner_step id σ r).1 !! id = Some t'
        ∧ start_follows (runner_step id σ r).2 t'.
Proof.
  intros Ht Hc. unfold start_follows.
  assert (Hset : ∀ f, ∃ σ', set_field id f σ = Ok σ' ∧ tasks σ' !! id = Some (f t)).
  { intros f. eexists. split; [by apply set_field_ok|]. cbn. apply lookup_insert_eq. }
  inversion Hc as
    [ mid t0 Hmid Hu | mid t0 Hmid Hu | mid t0 Hmid Hu | mid t0 Hmid Hu
    | msg t0 Hu | rest t0 Hrest Hs Hf He
    | pre m t0 Hpre Hm Hu | m t0 Hm Hu | m t0 Hm Hs Hf He | m t0 Hm Hs Hf He
    | t0 Hs Hf He | m t0 Hm Hs Hf He | b t0 Hu ]; subst; cbn [runner_step exec].
  - cbn [awaiting_start]. intros Hst. by exists t.
  - cbn [awaiting_start]. intros Hst.
    destruct (Hset (with_status TaskStatus.RUNNING)) as (σ' & -> & Hσ').
    by eexists.
  - intros _. destruct (Hset (with_started_at (now σ))) as (σ' & -> & Hσ').
    eexists. split; [done|]. cbn [fst snd].
    rewrite (not_awaiting_body mid Hmid). by eexists.
  - rewrite (not_awaiting_body mid Hmid). intros Hst.
    destruct mid as [|i mid]; cbn [app success_tail runner_step exec].
    + destruct (Hset (with_status TaskStatus.SUCCESS)) as (σ' & -> & Hσ').
      by eexists.
    + pose proof Hmid as Hall. apply Forall_cons in Hmid as [Hi Hmid].
      destruct (exec id i σ) as [σ'|e|b|] eqn:E; cbn [fst snd].
      * exists t. split.
        { apply exec_tasks in E as [-> _].
          rewrite lookup_alter_eq, Ht. cbn. by rewrite neutral_effect. }
        by rewrite (not_awaiting_body mid Hmid).
      * by exists t.
      * by exists t.
      * exists t. split; [done|].
        change (i :: mid ++ success_tail) with ((i :: mid) ++ success_tail).
        by rewrite (not_awaiting_body (i :: mid) Hall).
  - intros Hst. destruct (Hset (with_finished_at (now σ))) as (σ' & -> & Hσ').
    by eexists.
  - rewrite (not_awaiting_logging rest Hrest). intros Hst.
    destruct rest as [|i rest]; [by exists t|].
    apply Forall_cons in Hrest as [Hi Hrest]. destruct i; try done.
    cbn [runner_step exec fst snd]. rewrite tasks_log_task. exists t.
    split; [done|]. by rewrite (not_awaiting_logging rest Hrest).
  - intros Hst. destruct pre as [|i pre]; cbn [app failure_tail runner_step exec].
    + destruct (Hset (with_status TaskStatus.FAILED)) as (σ' & -> & Hσ').
      by eexists.
    + apply Forall_cons in Hpre as [Hi Hpre]. destruct i; try done.
      cbn. rewrite tasks_log_task. by exists t.
  - intros Hst. destruct (Hset (with_error_message m)) as (σ' & -> & Hσ').
    by eexists.
  - intros Hst. destruct (Hset (with_finished_at (now σ))) as (σ' & -> & Hσ').
    by eexists.
  - intros Hst. by exists t.
  - intros Hst. by exists t.
  - intros Hst. by exists t.
  - intros Hst. by exists t.
Qed.

Lemma act_started a s : tasks_started_by_runners s → tasks_started_by_runners (act a s).
Proof.
  intros Inv. destruct a as [id request c | id | conn id | conn | ts]; cbn.
  - destruct (tasks (store s) !! id) eqn:E; [done|].
    intros id' t. cbn. destruct (decide (id = id')) as [<-|Hne].
    + rewrite !lookup_insert_eq. intros [= <-]. eexists. split; [done|].
      split; [by apply start_consistent|]. reflexivity.
    + rewrite !lookup_insert_ne by done. apply Inv.
  - destruct (runners s !! id) as [r|] eqn:Er; [|done].
    destruct (runner_step id (store s) r) as [σ' r'] eqn:Es.
    intros id' t'. cbn.
    destruct (runner_step_tasks id (store s) r) as (f & _ & Hf).
    rewrite Es in Hf. cbn in Hf.
    destruct (decide (id = id')) as [<-|Hne].
    + rewrite lookup_insert_eq, Hf, lookup_alter_eq.
      destruct (tasks (store s) !! id) as [t|] eqn:Et; [|done].
      cbn. intros [= <-]. destruct (Inv id t Et) as (r0 & Hr0 & Hc & Hst).
      rewrite Er in Hr0. injection Hr0 as <-.
      destruct (runner_step_consistent id (store s) r t Et Hc) as (t1 & Ht1 & Hc').
      destruct (runner_step_start id (store s) r t Et Hc Hst) as (t2 & Ht2 & Hst').
      rewrite Es in Ht1, Hc', Ht2, Hst'. cbn in Ht1, Hc', Ht2, Hst'.
      rewrite Hf, lookup_alter_eq, Et in Ht1, Ht2. cbn in Ht1, Ht2.
      injection Ht1 as <-. injection Ht2 as <-. eexists. split; done.
    + rewrite lookup_insert_ne, Hf, lookup_alter_ne by done. apply Inv.
  - unfold stream_task_logs. by destruct (tasks (store s) !! id).
  - destruct (streams s !! conn) as [st|]; [|done]. by destruct (relay_step _ _ _).
  - exact Inv.
Qed.

Lemma reachable_started acts : tasks_started_by_runners (run acts initial).
Proof.
  assert (Hinit : tasks_started_by_runners initial).
  { intros id t. cbn. by rewrite lookup_empty. }
  generalize dependent initial. induction acts as [|a acts IH]; intros s Hs; [done|].
  cbn. apply IH. by apply act_started.
Qed.

(** X7.  In every reachable state: a PENDING task has [started_at],
    [finished_at] and [error_message] unset; a task that is SUCCESS or FAILED
    has [started_at] set.  (A RUNNING task may still have [started_at]
    unset: the status is written before it.) *)
Theorem started_at_follows_status (acts : list Action) (id : string) (t : Task) :
  tasks (store (run acts initial)) !! id = Some t →
  (status t = TaskStatus.PENDING →
     started_at t = None ∧ finished_at t = None ∧ error_message t = None)
  ∧ (terminal t → is_Some (started_at t)).
Proof.
  intros Ht. destruct (reachable_started acts id t Ht) as (r & _ & Hc & Hst).
  destruct status_values_differ as (Hps & Hpf & Hrs & Hrf).
  unfold start_follows, terminal, unfinished in *.
  assert (Hrp : TaskStatus.RUNNING ≠ TaskStatus.PENDING) by discriminate.
  inversion Hc as
    [ mid t0 Hmid Hu | mid t0 Hmid Hu | mid t0 Hmid Hu | mid t0 Hmid Hu
    | msg t0 Hu | rest t0 Hrest Hs Hf He
    | pre m t0 Hpre Hm Hu | m t0 Hm Hu | m t0 Hm Hs Hf He | m t0 Hm Hs Hf He
    | t0 Hs Hf He | m t0 Hm Hs Hf He | b t0 Hu ]; subst;
    try destruct Hu as (Hs & Hf & He);
    try rewrite (not_awaiting_logging _ Hrest) in Hst;
    try rewrite (not_awaiting_body _ Hmid) in Hst;
    cbn [awaiting_start] in Hst;
    (split; [intros Hp|intros [Hp|Hp]]); try congruence; try done.
Qed.

End Started.

Lemma started_at_follows_status_witness :
  tasks (store (run (Scenario.started Scenario.failing 30) initial)) !! "t1"
  = Some Scenario.failed_task
  ∧ (terminal Scenario.failed_task → is_Some (started_at Scenario.failed_task)).
Proof.
  assert (Ht : tasks (store (run (Scenario.started Scenario.failing 30) initial)) !! "t1"
               = Some Scenario.failed_task) by (vm_compute; reflexivity).
  exact (conj Ht (proj2 (started_at_follows_status _ "t1" _ Ht))).
Defined.

(** ** Logs of different tasks *)

Lemma new_log_wf id σ : wf_logs σ → wf_logs (new_log id σ).
Proof.
  intros [Hin Hinj]. split; cbn.
  - intros id' l. rewrite length_app. cbn. rewrite lookup_insert.
    destruct (decide (id = id')); [intros [= <-]; lia|].
    intros Hl. apply Hin in Hl. lia.
  - intros id1 id2 l. rewrite !lookup_insert.
    destruct (decide (id = id1)) as [<-|H1], (decide (id = id2)) as [<-|H2];
      try done.
    + intros [= <-] Hl. apply Hin in Hl. lia.
    + intros Hl [= <-]. apply Hin in Hl. lia.
    + apply Hinj.
Qed.

Lemma new_log_other id id' σ :
  wf_logs σ → id' ≠ id → logs_of (new_log id σ) id' = logs_of σ id'.
Proof.
  intros [Hin _] Hne. unfold logs_of, deref. cbn.
  rewrite lookup_insert_ne by done.
  destruct (task_logs σ !! id') as [l|] eqn:El; [|done]. cbn.
  by rewrite lookup_app_l by by eapply Hin.
Qed.

Lemma append_at_wf l r σ : wf_logs σ → wf_logs (append_at l r σ).
Proof.
  intros [Hin Hinj]. split; cbn; [|done].
  intros id l'. rewrite length_alter. apply Hin.
Qed.

Lemma log_task_own id msg σ :
  wf_logs σ →
  logs_of (log_task id msg σ) id
  = Some (default [] (logs_of σ id) ++ [{| timestamp := now σ; message := msg |}]).
Proof.
  intros Hwf. unfold log_task, logs_of.
  destruct (task_logs σ !! id) as [l|] eqn:El.
  - rewrite El. cbn. rewrite El. cbn. unfold deref. cbn.
    rewrite list_lookup_alter_eq.
    destruct (lookup_lt_is_Some_2 (heap σ) l) as [recs Hrecs];
      [by eapply (proj1 Hwf)|].
    by rewrite Hrecs.
  - destruct (new_log_fresh id σ) as (Hl & Hrecs & _). rewrite Hl.
    cbn [append_at task_logs]. rewrite Hl. cbn. unfold deref. cbn.
    rewrite list_lookup_alter_eq. cbn in Hrecs. by rewrite Hrecs.
Qed.

Lemma log_task_other id id' msg σ :
  wf_logs σ → id' ≠ id → logs_of (log_task id msg σ) id' = logs_of σ id'.
Proof.
  intros Hwf Hne. unfold log_task.
  destruct (task_logs σ !! id) as [l|] eqn:El.
  - rewrite El. unfold logs_of, deref. cbn.
    destruct (task_logs σ !! id') as [l'|] eqn:El'; [|done]. cbn.
    rewrite list_lookup_alter_ne; [done|].
    intros ->. apply Hne. by eapply (proj2 Hwf).
  - destruct (new_log_fresh id σ) as (Hl & _ & _). rewrite Hl.
    rewrite <- (new_log_other id id' σ Hwf Hne).
    unfold logs_of, deref. cbn [append_at task_logs heap].
    destruct (task_logs (new_log id σ) !! id') as [l'|] eqn:El'; [|done]. cbn.
    rewrite list_lookup_alter_ne; [done|].
    intros <-. apply Hne.
    by eapply (proj2 (new_log_wf id σ Hwf)).
Qed.

Lemma log_task_wf id msg σ : wf_logs σ → wf_logs (log_task id msg σ).
Proof.
  intros Hwf. unfold log_task.
  destruct (task_logs σ !! id) as [l|] eqn:El.
  - rewrite El. by apply append_at_wf.
  - destruct (new_log_fresh id σ) as (Hl & _ & _). rewrite Hl.
    by apply append_at_wf, new_log_wf.
Qed.

(** X9.  [log_task] on a store whose list references are sound.  It appends
    one record, stamped with the current time, at the end of the log of the
    task, creating the log if the id has none; it leaves the log of every
    other task and all task dicts as they are, and the references stay
    sound. *)
Theorem log_task_appends (id msg : string) (σ : Store) :
  wf_logs σ →
  logs_of (log_task id msg σ) id
  = Some (default [] (logs_of σ id) ++ [{| timestamp := now σ; message := msg |}])
  ∧ (∀ id', id' ≠ id → logs_of (log_task id msg σ) id' = logs_of σ id')
  ∧ tasks (log_task id msg σ) = tasks σ
  ∧ wf_logs (log_task id msg σ).
Proof.
  intros Hwf. split; [by apply log_task_own|].
  split; [intros id' Hne; by apply log_task_other|].
  split; [apply tasks_log_task|by apply log_task_wf].
Qed.

Lemma exec_wf id i σ σ' :
  wf_logs σ → exec id i σ = Ok σ' →
  wf_logs σ' ∧ ∀ id', id' ≠ id → logs_of σ' id' = logs_of σ id'.
Proof.
  intros Hwf.
  assert (Hset : ∀ f, set_field id f σ = Ok σ' →
            wf_logs σ' ∧ ∀ id', id' ≠ id → logs_of σ' id' = logs_of σ id').
  { intros f. unfold set_field. destruct (tasks σ !! id); [|discriminate].
    by intros [= <-]. }
  destruct i as [| s | | | m | msg | [|e|b|]]; cbn; try (apply Hset); try discriminate.
  - intros [= <-]. split; [by apply new_log_wf|]. intros id' Hne.
    by apply new_log_other.
  - intros [= <-]. split; [by apply log_task_wf|].
    intros id' Hne. by apply log_task_other.
  - by intros [= <-].
Qed.

Section Isolation.
Context `{JsonLib} `{Interpreter}.

Lemma runner_step_wf id σ r :
  wf_logs σ →
  wf_logs (runner_step id σ r).1
  ∧ ∀ id', id' ≠ id → logs_of (runner_step id σ r).1 id' = logs_of σ id'.
Proof.
  intros Hwf.
  destruct r as [[|i rest] | [|i rest] | | e | b]; cbn [runner_step fst]; try done.
  - destruct (exec id i σ) as [σ'|e|b|] eqn:E; try done. by apply (exec_wf id i).
  - destruct (exec id i σ) as [σ'|e|b|] eqn:E; try done. by apply (exec_wf id i).
Qed.

Lemma act_wf a s : wf_logs (store s) → wf_logs (store (act a s)).
Proof.
  intros Hwf. destruct a as [id request c | id | conn id | conn | ts]; cbn [act].
  - by destruct (tasks (store s) !! id).
  - destruct (runners s !! id) as [r|]; [|done].
    pose proof (runner_step_wf id (store s) r Hwf) as [Hwf' _].
    by destruct (runner_step id (store s) r).
  - by destruct (stream_task_logs id (store s)).
  - destruct (streams s !! conn) as [st|]; [|done]. by destruct (relay_step _ _ _).
  - done.
Qed.

(** In the running server the list references are sound. *)
Lemma reachable_wf acts : wf_logs (store (run acts initial)).
Proof.
  assert (Hinit : wf_logs (store initial)).
  { split; cbn; intros *; by rewrite lookup_empty. }
  generalize dependent initial. induction acts as [|a acts IH]; intros s Hs; [done|].
  cbn. apply IH. by apply act_wf.
Qed.

(** X10.  Tasks do not touch each other.  In the running server a statement
    of the runner of one task changes neither the dict nor the log of any
    other task. *)
Theorem runner_touches_own_task_only (acts : list Action) (id id' : string) :
  id' ≠ id →
  tasks (store (act (Step id) (run acts initial))) !! id'
  = tasks (store (run acts initial)) !! id'
  ∧ logs_of (store (act (Step id) (run acts initial))) id'
    = logs_of (store (run acts initial)) id'.
Proof.
  intros Hne. pose proof (reachable_wf acts) as Hwf.
  generalize dependent (run acts initial). intros s Hwf. cbn [act].
  destruct (runners s !! id) as [r|]; [|done].
  destruct (runner_step_tasks id (store s) r) as (f & _ & Hf).
  pose proof (runner_step_wf id (store s) r Hwf) as [_ Hlogs].
  destruct (runner_step id (store s) r) as [σ' r']. cbn [fst store] in *.
  split; [|by apply Hlogs]. by rewrite Hf, lookup_alter_ne.
Qed.

End Isolation.

Lemma log_task_appends_witness :
  wf_logs (store (run (Scenario.started Scenario.failing 30) initial))
  ∧ logs_of (log_task "t1" "hello"
               (store (run (Scenario.started Scenario.failing 30) initial))) "t1"
    = Some (default [] (logs_of (store (run (Scenario.started Scenario.failing 30)
                                          initial)) "t1")
            ++ [{| timestamp := now (store (run (Scenario.started Scenario.failing 30)
                                              initial));
                   message := "hello" |}]).
Proof.
  pose proof (reachable_wf (Scenario.started Scenario.failing 30)) as Hwf.
  exact (conj Hwf (proj1 (log_task_appends "t1" "hello" _ Hwf))).
Defined.

Lemma runner_touches_own_task_only_witness :
  "t1" ≠ "t2"
  ∧ logs_of (store (act (Step "t2") (run Scenario.two_tasks initial))) "t1"
    = logs_of (store (run Scenario.two_tasks initial)) "t1".
Proof.
  assert (Hne : "t1" ≠ "t2") by discriminate.
  exact (conj Hne (proj2 (runner_touches_own_task_only Scenario.two_tasks "t2" "t1" Hne))).
Defined.

(** ** From the callback to the typed event *)

Lemma group_bytes_join s :
  (PyStr.group_bytes s).1 +:+ PyStr.join (PyStr.group_bytes s).2 = s.
Proof.
  induction s as [|b s IH]; [reflexivity|].
  cbn [PyStr.group_bytes]. destruct (PyStr.group_bytes s) as [pend cps].
  cbn [fst snd] in IH. destruct (PyStr.is_continuation b); cbn [fst snd].
  - change (String b pend +:+ PyStr.join cps)
      with (String b (pend +:+ PyStr.join cps)).
    by rewrite IH.
  - change (EmptyString +:+ PyStr.join (String b pend :: cps))
      with (String b (pend +:+ PyStr.join cps)).
    by rewrite IH.
Qed.

Lemma join_codepoints s : PyStr.join (PyStr.codepoints s) = s.
Proof.
  pose proof (group_bytes_join s) as Hs. unfold PyStr.codepoints.
  destruct (PyStr.group_bytes s) as [[|b pend] cps]; cbn [fst snd] in Hs; exact Hs.
Qed.

Lemma group_bytes_app s1 s2 :
  starts_clean s2 →
  PyStr.group_bytes (s1 +:+ s2)
  = ((PyStr.group_bytes s1).1, (PyStr.group_bytes s1).2 ++ (PyStr.group_bytes s2).2).
Proof.
  unfold starts_clean. intros Hclean.
  induction s1 as [|b s1 IH].
  - change (EmptyString +:+ s2) with s2.
    destruct (PyStr.group_bytes s2) as [pend cps]. cbn in *. by subst.
  - change (String b s1 +:+ s2) with (String b (s1 +:+ s2)).
    cbn [PyStr.group_bytes]. rewrite IH.
    destruct (PyStr.group_bytes s1) as [pend cps]. cbn [fst snd].
    by destruct (PyStr.is_continuation b).
Qed.

Lemma codepoints_clean s : starts_clean s → PyStr.codepoints s = (PyStr.group_bytes s).2.
Proof.
  unfold starts_clean, PyStr.codepoints.
  destruct (PyStr.group_bytes s) as [pend cps]. cbn. by intros ->.
Qed.

Lemma codepoints_app s1 s2 :
  starts_clean s2 →
  PyStr.codepoints (s1 +:+ s2) = PyStr.codepoints s1 ++ PyStr.codepoints s2.
Proof.
  intros Hclean. rewrite (codepoints_clean s2 Hclean).
  unfold PyStr.codepoints at 1 2. rewrite (group_bytes_app s1 s2 Hclean).
  destruct (PyStr.group_bytes s1) as [[|b pend] cps]; reflexivity.
Qed.

Lemma starts_clean_app s1 s2 :
  starts_clean s1 → starts_clean s2 → starts_clean (s1 +:+ s2).
Proof.
  intros H1 H2. unfold starts_clean. by rewrite (group_bytes_app s1 s2 H2).
Qed.

Lemma find_index_app c l1 l2 :
  existsb (String.eqb c) l1 = false →
  PyStr.find_index c (l1 ++ c :: l2) = Some (length l1).
Proof.
  induction l1 as [|x l1 IH]; cbn.
  - by rewrite String.eqb_refl.
  - destruct (String.eqb c x); [discriminate|]. cbn. intros Hl1.
    by rewrite (IH Hl1).
Qed.

(** The code points of a message written by [handle_chunk_event]. *)
Lemma codepoints_message event_type payload :
  starts_clean event_type → starts_clean payload →
  PyStr.codepoints ("[" +:+ event_type +:+ "] " +:+ payload)
  = "[" :: PyStr.codepoints event_type ++ "]" :: " " :: PyStr.codepoints payload.
Proof.
  intros Het Hpay.
  assert (Htail : starts_clean ("] " +:+ payload)).
  { apply starts_clean_app; [reflexivity|done]. }
  rewrite (codepoints_app "[" _ (starts_clean_app _ _ Het Htail)).
  rewrite (codepoints_app event_type _ Htail).
  rewrite (codepoints_app "] " payload Hpay).
  reflexivity.
Qed.

Section RoundTrip.
Context `{JsonLib} `{Interpreter}.

(** X11.  What the runner writes for a callback, the relay reads back.  For
    an event type without a closing bracket and data that the codec decodes
    again from its own output, the record logged by [handle_chunk_event] is
    framed as an event of that type whose data is the re-encoded value (the
    strings being encodings of whole code points). *)
Theorem callback_round_trip (event_type ts : string) (data data' : JSON) :
  starts_clean event_type →
  starts_clean (dumps data) →
  PyStr.contains "]" event_type = false →
  loads (dumps data) = Decoded data' →
  ∃ msg, handle_chunk_event (event_type, data) = LogTask msg
         ∧ frame {| timestamp := ts; message := msg |}
           = Yields {| event := event_type; data := dumps data' |}.
Proof.
  intros Het Hpay Hno Hloads. eexists. split; [reflexivity|].
  cbn [fst snd]. unfold frame. cbn [message].
  pose proof (codepoints_message event_type (dumps data) Het Hpay) as Hcps.
  assert (Hstart : PyStr.startswith "[" ("[" +:+ event_type +:+ "] " +:+ dumps data) = true).
  { unfold PyStr.startswith.
    change ("[" +:+ event_type +:+ "] " +:+ dumps data)
      with (String "[" (event_type +:+ "] " +:+ dumps data)).
    cbn [String.prefix]. destruct (ascii_dec "[" "[") as [_|Hne]; [|done].
    by destruct (event_type +:+ "] " +:+ dumps data). }
  assert (Hin : PyStr.contains "]" ("[" +:+ event_type +:+ "] " +:+ dumps data) = true).
  { unfold PyStr.contains. rewrite Hcps. cbn [existsb]. rewrite existsb_app.
    cbn. by rewrite orb_true_r. }
  assert (Hidx : PyStr.index "]" ("[" +:+ event_type +:+ "] " +:+ dumps data)
                 = Some (S (length (PyStr.codepoints event_type)))).
  { unfold PyStr.index. rewrite Hcps. cbn [PyStr.find_index].
    replace (String.eqb "]" "[") with false by reflexivity.
    by rewrite (find_index_app "]" _ _ Hno). }
  rewrite Hstart, Hin, Hidx. cbn [andb mbind option_bind].
  assert (Hslice : PyStr.slice 1 (S (length (PyStr.codepoints event_type)))
                     ("[" +:+ event_type +:+ "] " +:+ dumps data) = event_type).
  { unfold PyStr.slice. rewrite Hcps. cbn [drop].
    replace (S (length (PyStr.codepoints event_type)) - 1)
      with (length (PyStr.codepoints event_type)) by lia.
    by rewrite drop_0, take_app_length, join_codepoints. }
  assert (Hfrom : PyStr.slice_from (S (length (PyStr.codepoints event_type)) + 2)
                    ("[" +:+ event_type +:+ "] " +:+ dumps data) = dumps data).
  { unfold PyStr.slice_from. rewrite Hcps. cbn [Nat.add drop].
    rewrite drop_app_add'; [|done].
    change (drop 2 ("]" :: " " :: PyStr.codepoints (dumps data)))
      with (PyStr.codepoints (dumps data)).
    by rewrite join_codepoints. }
  rewrite Hslice, Hfrom, Hloads. reflexivity.
Qed.

End RoundTrip.

Lemma callback_round_trip_witness :
  starts_clean "progress"
  ∧ starts_clean (dumps (JObj [("pct", JInt 50)]))
  ∧ PyStr.contains "]" "progress" = false
  ∧ loads (dumps (JObj [("pct", JInt 50)])) = Decoded (JObj [("pct", JInt 50)])
  ∧ ∃ msg, handle_chunk_event ("progress", JObj [("pct", JInt 50)]) = LogTask msg
           ∧ frame {| timestamp := "10:00:01"; message := msg |}
             = Yields {| event := "progress"; data := dumps (JObj [("pct", JInt 50)]) |}.
Proof.
  assert (H1 : starts_clean "progress") by reflexivity.
  assert (H2 : starts_clean (dumps (JObj [("pct", JInt 50)])))
    by (vm_compute; reflexivity).
  assert (H3 : PyStr.contains "]" "progress" = false) by (vm_compute; reflexivity).
  assert (H4 : loads (dumps (JObj [("pct", JInt 50)])) = Decoded (JObj [("pct", JInt 50)]))
    by (vm_compute; reflexivity).
  exact (conj H1 (conj H2 (conj H3 (conj H4
           (callback_round_trip "progress" "10:00:01" _ _ H1 H2 H3 H4))))).
Defined.
